(** * PageRank: a shallow embedding of [pagerank.py]

    The development follows the three functions of the program that carry
    the algorithm: [transition_model], [sample_pagerank] and
    [iterate_pagerank].

    Modelling choices, all read off the source:
    - a Python [dict] is an insertion-ordered association list with unique
      keys; assigning to an existing key keeps its position;
    - a Python [set] of page names is a [gset string];
    - Python numbers are exact rationals [Q]: the arithmetic expressions are
      those of the source, evaluated without rounding; the ranks that
      [sample_pagerank] returns are also given as the binary64 numbers of
      the program ([sample_pagerank_b64]);
    - exceptions are the [Raise] branch of [result];
    - the [random] module is driven by a tape of raw draws, one per call;
    - the [while] loop of [iterate_pagerank] takes fuel: [None] means that
      the fuel ran out before the loop condition became false. *)

From Stdlib Require Import QArith Qabs Lqa SpecFloat.
From stdpp Require Import base decidable option list gmap sets strings.

Local Open Scope string_scope.
Local Open Scope list_scope.

(** ** Exceptions *)

Inductive exn : Type :=
  | KeyError
  | IndexError
  | ValueError
  | ZeroDivisionError.

Inductive result (A : Type) : Type :=
  | Ok (a : A)
  | Raise (e : exn).

Arguments Ok {A} a.
Arguments Raise {A} e.

#[global] Instance result_ret : MRet result := @Ok.
#[global] Instance result_bind : MBind result := fun A B f m =>
  match m with
  | Ok a => f a
  | Raise e => Raise e
  end.

(** [for x in xs: body] where the body may raise. *)
Fixpoint for_in {S X : Type} (xs : list X) (body : S -> X -> result S) (s : S)
  : result S :=
  match xs with
  | [] => Ok s
  | x :: xs' => s' ← body s x; for_in xs' body s'
  end.

(** ** Dictionaries *)

Abbreviation dict V := (list (string * V)).

Fixpoint dict_get {V : Type} (d : dict V) (k : string) : option V :=
  match d with
  | [] => None
  | (k', v) :: d' => if decide (k = k') then Some v else dict_get d' k
  end.

(** [d[k] = v]: overwrite in place, or append a new entry. *)
Fixpoint dict_set {V : Type} (d : dict V) (k : string) (v : V) : dict V :=
  match d with
  | [] => [(k, v)]
  | (k', v') :: d' =>
      if decide (k = k') then (k', v) :: d' else (k', v') :: dict_set d' k v
  end.

Definition keys {V : Type} (d : dict V) : list string := d.*1.
Definition values {V : Type} (d : dict V) : list V := d.*2.
Definition len {V : Type} (d : dict V) : nat := length d.

(** [d[k]] as an expression. *)
Definition getitem {V : Type} (d : dict V) (k : string) : result V :=
  match dict_get d k with
  | Some v => Ok v
  | None => Raise KeyError
  end.

(** [xs[i]] on a list. *)
Definition list_index {X : Type} (xs : list X) (i : nat) : result X :=
  match xs !! i with
  | Some x => Ok x
  | None => Raise IndexError
  end.

(** ** Numbers *)

Definition Qnat (n : nat) : Q := inject_Z (Z.of_nat n).

(** [a / b] on numbers. *)
Definition truediv (a b : Q) : result Q :=
  if Qeq_bool b 0 then Raise ZeroDivisionError else Ok (a / b)%Q.

Fixpoint Qsum (l : list Q) : Q :=
  match l with
  | [] => 0%Q
  | x :: l' => (x + Qsum l')%Q
  end.

(** ** The corpus *)

Abbreviation corpus_t := (dict (gset string)).

(** The invariant of the mapping that [crawl] returns: keys are unique (it
    is a dict), every link points to a page of the corpus, no page links to
    itself. *)
Record corpus_ok (corpus : corpus_t) : Prop := {
  corpus_nodup : NoDup (keys corpus);
  corpus_closed : ∀ page links, (page, links) ∈ corpus → ∀ l, l ∈ links → l ∈ keys corpus;
  corpus_irrefl : ∀ page links, (page, links) ∈ corpus → page ∉ links
}.

(** ** transition_model *)

(** The probability that the loop body assigns to [filename] when the
    current page has the non-empty link set [links]. *)
Definition link_probability (corpus : corpus_t) (links : gset string)
    (damping_factor : Q) (filename : string) : Q :=
  if decide (filename ∈ links)
  then (damping_factor / Qnat (size links) + (1 - damping_factor) / Qnat (len corpus))%Q
  else ((1 - damping_factor) / Qnat (len corpus))%Q.

(** [corpus[page]] raises [KeyError] at the [if] when [page] is no key; the
    loops re-read the same entry.  The divisions are inside loops over the
    corpus (so [len corpus] is not 0) and, for [len(corpus[page])], in the
    branch where the link set is not empty. *)
Definition transition_model (corpus : corpus_t) (page : string) (damping_factor : Q)
  : result (dict Q) :=
  links ← getitem corpus page;
  if decide (links = ∅) then
    Ok (foldl (fun distribution filename =>
                 dict_set distribution filename (1 / Qnat (len corpus))%Q)
              [] (keys corpus))
  else
    Ok (foldl (fun distribution filename =>
                 dict_set distribution filename
                   (link_probability corpus links damping_factor filename))
              [] (keys corpus)).

(** ** The random module

    One raw draw is consumed by every call into [random]; the tape gives the
    k-th raw draw of a run. *)

Definition random_source : Type := nat -> N.

Definition advance (rnd : random_source) : random_source := fun i => rnd (S i).

(** [random.randrange(n)]: some value below [n], [ValueError] on an empty
    range. *)
Definition randrange (raw : N) (n : nat) : result nat :=
  if decide (n = 0%nat) then Raise ValueError
  else Ok (N.to_nat (raw `mod` N.of_nat n)).

(** [random.random()]: a multiple of 2^-53 in [0, 1). *)
Definition random_float (raw : N) : Q :=
  Qmake (Z.of_N (raw `mod` 2 ^ 53)) (2 ^ 53).

(** [itertools.accumulate]: running sums. *)
Fixpoint accumulate_from (acc : Q) (ws : list Q) : list Q :=
  match ws with
  | [] => []
  | w :: ws' => (acc + w)%Q :: accumulate_from (acc + w)%Q ws'
  end.

Definition accumulate (ws : list Q) : list Q :=
  match ws with
  | [] => []
  | w :: ws' => w :: accumulate_from w ws'
  end.

Definition Qlt_bool (a b : Q) : bool := negb (Qle_bool b a).

(** [bisect.bisect_right(a, x, lo, hi)]; [hi - lo] shrinks at every turn of
    its loop, so that much fuel is enough. *)
Fixpoint bisect_loop (fuel : nat) (a : list Q) (x : Q) (lo hi : nat) : result nat :=
  match fuel with
  | O => Ok lo
  | S fuel' =>
      if decide (lo < hi)%nat then
        let mid := ((lo + hi) `div` 2)%nat in
        a_mid ← list_index a mid;
        if Qlt_bool x a_mid
        then bisect_loop fuel' a x lo mid
        else bisect_loop fuel' a x (mid + 1)%nat hi
      else Ok lo
  end.

Definition bisect_right (a : list Q) (x : Q) (lo hi : nat) : result nat :=
  bisect_loop (hi - lo) a x lo hi.

(** [random.choices(population, weights)[0]]. *)
Definition choices (raw : N) (population : list string) (weights : list Q)
  : result string :=
  let n := length population in
  let cum_weights := accumulate weights in
  if decide (length cum_weights = n) then
    match last cum_weights with
    | None => Raise IndexError
    | Some total =>
        if Qle_bool total 0 then Raise ValueError
        else
          i ← bisect_right cum_weights (random_float raw * total)%Q 0 (n - 1);
          list_index population i
    end
  else Raise ValueError.

(** ** sample_pagerank *)

(** One turn of the sampling loop: the state is the current page and the
    visit counters. *)
Definition sample_step (corpus : corpus_t) (damping_factor : Q)
    (pages : list string) (rnd : random_source)
    (st : string * dict Z) (i : nat) : result (string * dict Z) :=
  distribution ← transition_model corpus st.1 damping_factor;
  page ← choices (rnd (S i)) pages (values distribution);
  count ← getitem st.2 page;
  Ok (page, dict_set st.2 page (count + 1)%Z).

(** The last loop: every counter is replaced, in place, by its quotient by
    [n]; keys are unique, so each entry is read once, before it is written. *)
Fixpoint divide_all (data : dict Z) (n : Z) : result (dict Q) :=
  match data with
  | [] => Ok []
  | (filename, count) :: data' =>
      q ← truediv (inject_Z count) (inject_Z n);
      rest ← divide_all data' n;
      Ok ((filename, q) :: rest)
  end.

Definition sample_walk (rnd : random_source) (corpus : corpus_t)
    (damping_factor : Q) (n : Z) : result (string * dict Z) :=
  let data := foldl (fun data filename => dict_set data filename 0%Z) [] (keys corpus) in
  let pages := keys corpus in
  i ← randrange (rnd 0%nat) (len corpus);
  page ← list_index pages i;
  for_in (seq 0 (Z.to_nat n)) (sample_step corpus damping_factor pages rnd) (page, data).

Definition sample_pagerank (rnd : random_source) (corpus : corpus_t)
    (damping_factor : Q) (n : Z) : result (dict Q) :=
  st ← sample_walk rnd corpus damping_factor n;
  divide_all st.2 n.

(** *** The last loop in binary64

    [data[filename] / n] divides two ints: Python returns the binary64
    number nearest to the quotient (ties to even).  [SFdiv] is that
    division on the two integers taken as they are. *)

Definition Z2SF (z : Z) : spec_float :=
  match z with
  | Z0 => S754_zero false
  | Zpos p => S754_finite false p 0
  | Zneg p => S754_finite true p 0
  end.

Definition b64_div (a b : Z) : spec_float := SFdiv 53 1024 (Z2SF a) (Z2SF b).

Definition b64_add (x y : spec_float) : spec_float := SFadd 53 1024 x y.

(** The rational number that a finite binary64 number stands for. *)
Definition SF2Q (x : spec_float) : Q :=
  match x with
  | S754_finite s m e => (inject_Z (cond_Zopp s (Zpos m)) * Qpower 2 e)%Q
  | _ => 0%Q
  end.

Definition truediv_int (a b : Z) : result spec_float :=
  if Z.eqb b 0 then Raise ZeroDivisionError else Ok (b64_div a b).

Fixpoint divide_all_b64 (data : dict Z) (n : Z) : result (dict spec_float) :=
  match data with
  | [] => Ok []
  | (filename, count) :: data' =>
      q ← truediv_int count n;
      rest ← divide_all_b64 data' n;
      Ok ((filename, q) :: rest)
  end.

(** [sample_pagerank] with the ranks as the binary64 numbers that the
    program returns. *)
Definition sample_pagerank_b64 (rnd : random_source) (corpus : corpus_t)
    (damping_factor : Q) (n : Z) : result (dict spec_float) :=
  st ← sample_walk rnd corpus damping_factor n;
  divide_all_b64 st.2 n.

(** A random source that yields the raw draws of a list, then 0. *)
Definition tape_of (draws : list N) : random_source :=
  fun k => default 0%N (draws !! k).

Fixpoint Zsum (l : list Z) : Z :=
  match l with
  | [] => 0%Z
  | z :: l' => (z + Zsum l')%Z
  end.

(** The draw that [random.random()] makes of a raw value, written out. *)
Definition unit_draw (raw : N) : Q := Qmake (Z.of_N (raw `mod` 2 ^ 53)) (2 ^ 53).

(** ** iterate_pagerank *)

(** The inner loop: [sum_i] for the page [file]. *)
Definition inbound_sum (corpus : corpus_t) (data : dict Q) (file : string)
  : result Q :=
  for_in (keys data)
    (fun sum_i file_i =>
       links ← getitem corpus file_i;
       if decide (file ∈ links) then
         rank ← getitem data file_i;
         Ok (sum_i + rank / Qnat (size links))%Q
       else Ok sum_i)
    0%Q.

Definition relax_page (corpus : corpus_t) (damping_factor : Q) (N : nat)
    (data : dict Q) (file : string) : result (dict Q) :=
  sum_i ← inbound_sum corpus data file;
  Ok (dict_set data file ((1 - damping_factor) / Qnat N + damping_factor * sum_i)%Q).

(** One pass of the outer [for] loop; it writes into [data] itself. *)
Definition relax (corpus : corpus_t) (damping_factor : Q) (N : nat)
    (data : dict Q) : result (dict Q) :=
  for_in (keys data) (relax_page corpus damping_factor N) data.

(** The body of the [while] loop: the new [data] and the new [change]. *)
Definition iterate_body (raw : N) (corpus : corpus_t) (damping_factor : Q)
    (N : nat) (data : dict Q) : result (dict Q * Q) :=
  i ← randrange raw (len data);
  filename ← list_index (keys data) i;
  previous_value ← getitem data filename;
  data' ← relax corpus damping_factor N data;
  value ← getitem data' filename;
  Ok (data', (value - previous_value)%Q).

Definition keep_going (change : Q) : bool :=
  Qlt_bool (1 # 10000) change || Qlt_bool change (- (1 # 10000)).

Fixpoint iterate_loop (fuel : nat) (rnd : random_source) (corpus : corpus_t)
    (damping_factor : Q) (N : nat) (data : dict Q) (change : Q)
  : option (result (dict Q)) :=
  if keep_going change then
    match fuel with
    | O => None
    | S fuel' =>
        match iterate_body (rnd 0%nat) corpus damping_factor N data with
        | Ok (data', change') =>
            iterate_loop fuel' (advance rnd) corpus damping_factor N data' change'
        | Raise e => Some (Raise e)
        end
    end
  else Some (Ok data).

(** The first loop: every page starts at 1/N. *)
Definition initial_ranks (corpus : corpus_t) : dict Q :=
  foldl (fun data filename => dict_set data filename (1 / Qnat (len corpus))%Q)
        [] (keys corpus).

Definition iterate_pagerank (fuel : nat) (rnd : random_source)
    (corpus : corpus_t) (damping_factor : Q) : option (result (dict Q)) :=
  let N := len corpus in
  let data := initial_ranks corpus in
  iterate_loop fuel rnd corpus damping_factor N data 1%Q.

(** [k] passes in a row, from the mapping [x]. *)
Fixpoint relax_n (corpus : corpus_t) (damping_factor : Q) (N : nat) (k : nat)
    (x : dict Q) : result (dict Q) :=
  match k with
  | O => Ok x
  | S k' => x' ← relax corpus damping_factor N x; relax_n corpus damping_factor N k' x'
  end.

(** ** The relaxation formula of the specification

    The formula of the design document, kept apart from the code: the new
    rank of [p] from a snapshot [rank] of the previous ranks, with the rank
    of every page without links spread over all N pages. *)

Definition rank_of (rank : dict Q) (q : string) : Q := default 0%Q (dict_get rank q).

Definition spec_new_rank (corpus : corpus_t) (d : Q) (rank : dict Q) (p : string) : Q :=
  ((1 - d) / Qnat (len corpus)
   + d * Qsum (map (λ entry, if decide (p ∈ entry.2)
                             then rank_of rank entry.1 / Qnat (size entry.2)
                             else 0) corpus)
   + d * Qsum (map (λ entry, if decide (entry.2 = ∅)
                             then rank_of rank entry.1 / Qnat (len corpus)
                             else 0) corpus))%Q.

(** The probability that [transition_model] gives to [p] from a page whose
    link set is [links]. *)
Definition next_probability (corpus : corpus_t) (links : gset string)
    (damping_factor : Q) (p : string) : Q :=
  if decide (links = ∅) then (1 / Qnat (len corpus))%Q
  else link_probability corpus links damping_factor p.

(** What page [q] adds to [sum_i] for the page [file], given the ranks
    stored in [data]. *)
Definition inbound_term (corpus : corpus_t) (data : dict Q) (file q : string) : Q :=
  match dict_get corpus q with
  | Some links =>
      if decide (file ∈ links) then (rank_of data q / Qnat (size links))%Q else 0%Q
  | None => 0%Q
  end.

(** ** crawl

    The directory is given as [os.listdir] returns it: one entry per file,
    with the list that [re.findall] extracts from the contents of the file
    (read for the names that end in ".html" only). *)

Abbreviation directory_t := (list (string * list string)).

(** [s.endswith(suffix)]. *)
Definition endswith (s suffix : string) : bool :=
  (String.length suffix <=? String.length s)%nat
  && String.eqb
       (String.substring (String.length s - String.length suffix)
                         (String.length suffix) s)
       suffix.

(** The first loop: [pages[filename] = set(links) - {filename}]. *)
Definition crawl_extract (directory : directory_t) : corpus_t :=
  foldl (λ pages entry,
           if endswith entry.1 ".html"
           then dict_set pages entry.1 (list_to_set entry.2 ∖ {[entry.1]})
           else pages)
        [] directory.

(** The body of the second loop: keep the links to pages of the corpus. *)
Definition crawl_restrict (pages : corpus_t) (filename : string) : result corpus_t :=
  links ← getitem pages filename;
  Ok (dict_set pages filename (filter (λ link, link ∈ keys pages) links)).

Definition crawl (directory : directory_t) : result corpus_t :=
  let pages := crawl_extract directory in
  for_in (keys pages) crawl_restrict pages.

(** ** Measuring a pass

    [link_share corpus file q] is the share of the rank of [q] that a pass
    adds to [sum_i] for [file]. *)
Definition link_share (corpus : corpus_t) (file q : string) : Q :=
  match dict_get corpus q with
  | Some links => if decide (file ∈ links) then (1 / Qnat (size links))%Q else 0%Q
  | None => 0%Q
  end.

(** The shares that the page [f] takes from the pages [js], weighted by [v]. *)
Definition rowsum (m : string → string → Q) (f : string) (js : list string)
    (v : string → Q) : Q :=
  Qsum (map (λ j, m f j * v j)%Q js).

(** The shares that the pages [fs] take from the page [q]. *)
Definition colsum (m : string → string → Q) (fs : list string) (q : string) : Q :=
  Qsum (map (λ f, m f q) fs).

(** A weighted sum of [v] over the pages in their order: the weight of a
    page is 1 minus [d] times the shares that the pages after it take from
    it. *)
Fixpoint wnorm (m : string → string → Q) (d : Q) (ks : list string)
    (v : string → Q) : Q :=
  match ks with
  | [] => 0%Q
  | k :: ks' => (v k * (1 - d * colsum m ks' k) + wnorm m d ks' v)%Q
  end.

(** What the page at each position takes from itself and the pages after
    it. *)
Fixpoint upper (m : string → string → Q) (ks : list string) (a : string → Q) : Q :=
  match ks with
  | [] => 0%Q
  | k :: ks' => (rowsum m k (k :: ks') a + upper m ks' a)%Q
  end.

(** The change of the rank of [q] between two mappings. *)
Definition rank_change (x y : dict Q) (q : string) : Q :=
  Qabs (rank_of x q - rank_of y q).

Fixpoint Qpow (d : Q) (k : nat) : Q :=
  match k with
  | O => 1%Q
  | S k' => (d * Qpow d k')%Q
  end.

(** The constants of the program. *)
Definition DAMPING : Q := 85 # 100.
Definition SAMPLES : Z := 10000.

(** How often [p] occurs among the visited pages. *)
Definition visit_count (p : string) (visits : list string) : Z :=
  Z.of_nat (length (filter (λ q, q = p) visits)).

(** A checker for [corpus_ok]. *)
Definition corpus_okb (corpus : corpus_t) : bool :=
  bool_decide (NoDup (keys corpus))
  && forallb (λ entry,
       bool_decide (entry.1 ∉ entry.2)
       && forallb (λ l, bool_decide (l ∈ keys corpus)) (elements entry.2))
     corpus.

(** ** Example corpora *)

(** The three-page corpus 1 -> 2, 2 -> 1 and 3, 3 -> 2. *)
Definition corpus_html : corpus_t :=
  [("1.html", {["2.html"]});
   ("2.html", {["1.html"; "3.html"]});
   ("3.html", {["2.html"]})].

(** A -> B, B -> C, C -> B: no page links to A. *)
Definition corpus_abc : corpus_t :=
  [("A", {["B"]}); ("B", {["C"]}); ("C", {["B"]})].

(** The same mapping as [corpus_abc], inserted in the opposite order. *)
Definition corpus_cba : corpus_t :=
  [("C", {["B"]}); ("B", {["C"]}); ("A", {["B"]})].

(** A directory: three pages and a file that is no page. *)
Definition directory_example : directory_t :=
  [("1.html", ["2.html"; "1.html"; "x.html"]);
   ("notes.txt", ["1.html"]);
   ("2.html", ["1.html"; "3.html"; "notes.txt"]);
   ("3.html", [])].

(** Two pages that link to each other. *)
Definition corpus_pair : corpus_t := [("A", {["B"]}); ("B", {["A"]})].

(** Raw draws that walk [corpus_html] from 1.html through
    2, 1, 2, 1, 2, 1, 2, 3, 2, 2: the first picks the seed, a half picks
    2.html, a fifth picks 1.html and four fifths pick 3.html from 2.html. *)
Definition draws_3_6_1 : list N :=
  [0; 4503599627370496; 1801439850948198; 4503599627370496; 1801439850948198;
   4503599627370496; 1801439850948198; 4503599627370496; 7205759403792793;
   4503599627370496; 4503599627370496]%N.

(** One page without links. *)
Definition corpus_single : corpus_t := [("1.html", ∅)].

(** A -> B, B -> C, C dangling. *)
Definition corpus_dangling : corpus_t :=
  [("A", {["B"]}); ("B", {["C"]}); ("C", ∅)].

(** * Properties *)

(** Decide a closed proposition by evaluation. *)
Ltac by_compute := apply (bool_decide_unpack _); vm_compute; exact I.

(** ** Dictionaries: reading after writing *)

Section dict_facts.
Context {V : Type}.
Implicit Types (d : dict V) (k : string) (v : V).

Lemma dict_get_set_eq d k v : dict_get (dict_set d k v) k = Some v.
Proof.
  induction d as [|[k' v'] d IH]; simpl.
  - by rewrite decide_True.
  - destruct (decide (k = k')) as [->|Hne]; simpl.
    + by rewrite decide_True.
    + by rewrite decide_False.
Qed.

Lemma dict_get_set_ne d k k' v :
  k ≠ k' → dict_get (dict_set d k v) k' = dict_get d k'.
Proof.
  intros Hne. induction d as [|[k0 v0] d IH]; simpl.
  - by rewrite decide_False.
  - destruct (decide (k = k0)) as [->|Hne0]; simpl.
    + by rewrite !decide_False.
    + by rewrite IH.
Qed.

Lemma dict_get_None d k : dict_get d k = None ↔ k ∉ keys d.
Proof.
  unfold keys. induction d as [|[k' v'] d IH]; simpl.
  - split; [intros _; apply not_elem_of_nil | done].
  - rewrite not_elem_of_cons. destruct (decide (k = k')) as [->|Hne].
    + split; [done | intros [? _]; done].
    + rewrite IH. tauto.
Qed.

Lemma dict_get_is_Some d k : k ∈ keys d → is_Some (dict_get d k).
Proof.
  intros Hin. destruct (dict_get d k) eqn:E; [by eexists|].
  by apply dict_get_None in E.
Qed.

Lemma dict_get_elem_of d k v : dict_get d k = Some v → (k, v) ∈ d.
Proof.
  induction d as [|[k' v'] d IH]; simpl; [done|].
  destruct (decide (k = k')) as [->|Hne].
  - intros [= ->]. apply list_elem_of_here.
  - intros H. apply list_elem_of_further. auto.
Qed.

Lemma keys_dict_set_in d k v : k ∈ keys d → keys (dict_set d k v) = keys d.
Proof.
  unfold keys. induction d as [|[k' v'] d IH]; simpl.
  - intros H. by apply elem_of_nil in H.
  - destruct (decide (k = k')) as [->|Hne]; simpl; [done|].
    intros [?|Hin]%elem_of_cons; [done|]. f_equal. by apply IH.
Qed.

Lemma dict_set_fresh d k v : k ∉ keys d → dict_set d k v = d ++ [(k, v)].
Proof.
  unfold keys. induction d as [|[k' v'] d IH]; simpl; [done|].
  intros [Hne Hnin]%not_elem_of_cons.
  rewrite decide_False by done. by rewrite IH.
Qed.

(** A dict filled by [for k in ks: d[k] = f(k)]. *)
Lemma dict_get_fill (f : string → V) ks d k :
  dict_get (foldl (λ d k, dict_set d k (f k)) d ks) k
  = if decide (k ∈ ks) then Some (f k) else dict_get d k.
Proof.
  revert d. induction ks as [|k0 ks IH]; intros d; simpl.
  - done.
  - rewrite IH. destruct (decide (k ∈ ks)) as [Hin|Hnin].
    + rewrite decide_True; [done | by apply list_elem_of_further].
    + destruct (decide (k = k0)) as [->|Hne].
      * rewrite decide_True by apply list_elem_of_here.
        apply dict_get_set_eq.
      * rewrite decide_False by (rewrite elem_of_cons; tauto).
        by apply dict_get_set_ne.
Qed.

Lemma dict_fill_fresh (f : string → V) ks d :
  NoDup (keys d ++ ks) →
  foldl (λ d k, dict_set d k (f k)) d ks = d ++ map (λ k, (k, f k)) ks.
Proof.
  revert d. induction ks as [|k0 ks IH]; intros d Hnd; simpl.
  - by rewrite app_nil_r.
  - assert (k0 ∉ keys d) as Hfresh.
    { apply NoDup_app in Hnd as (_ & Hd & _). intros Hin.
      apply (Hd _ Hin), list_elem_of_here. }
    rewrite dict_set_fresh by done. rewrite IH.
    + by rewrite <- app_assoc.
    + unfold keys in *. rewrite fmap_app. simpl.
      by rewrite <- app_assoc.
Qed.

Lemma dict_fill_nil (f : string → V) ks :
  NoDup ks → foldl (λ d k, dict_set d k (f k)) [] ks = map (λ k, (k, f k)) ks.
Proof. intros Hnd. by rewrite dict_fill_fresh. Qed.

Lemma keys_fill (f : string → V) ks : keys (map (λ k, (k, f k)) ks) = ks.
Proof.
  unfold keys. induction ks as [|k ks IH]; simpl; [done | by f_equal].
Qed.

Lemma values_fill (f : string → V) ks : values (map (λ k, (k, f k)) ks) = map f ks.
Proof.
  unfold values. induction ks as [|k ks IH]; simpl; [done | by f_equal].
Qed.
End dict_facts.

Lemma getitem_Ok {V : Type} (d : dict V) k v : dict_get d k = Some v → getitem d k = Ok v.
Proof. unfold getitem. by intros ->. Qed.

(** ** transition_model *)

(** What [transition_model] returns, read key by key; no assumption on the
    corpus besides the presence of [page]. *)
Lemma transition_model_get (corpus : corpus_t) (page : string) (d : Q) links :
  dict_get corpus page = Some links →
  ∃ distribution,
    transition_model corpus page d = Ok distribution ∧
    ∀ p, dict_get distribution p =
         if decide (p ∈ keys corpus)
         then Some (next_probability corpus links d p) else None.
Proof.
  intros Hlinks. unfold transition_model, next_probability.
  rewrite (getitem_Ok _ _ _ Hlinks). simpl.
  destruct (decide (links = ∅)) as [Hempty|Hne].
  - eexists. split; [done|]. intros p.
    by rewrite (dict_get_fill (λ _, (1 / Qnat (len corpus))%Q)).
  - eexists. split; [done|]. intros p.
    by rewrite (dict_get_fill (link_probability corpus links d)).
Qed.

(** C7: for a page of a non-empty corpus and a damping factor in (0,1),
    [transition_model] returns a distribution that gives every page of the
    corpus 1/N when the current page has no links; otherwise it gives
    d/|links| + (1-d)/N to the linked pages and (1-d)/N to the others. *)
Theorem transition_model_values (corpus : corpus_t) (page : string) (d : Q) :
  corpus ≠ [] → (0 < d)%Q → (d < 1)%Q → page ∈ keys corpus →
  ∃ links distribution,
    dict_get corpus page = Some links ∧
    transition_model corpus page d = Ok distribution ∧
    ∀ p, p ∈ keys corpus →
      dict_get distribution p =
        Some (if decide (links = ∅) then (1 / Qnat (len corpus))%Q
              else if decide (p ∈ links)
                   then (d / Qnat (size links) + (1 - d) / Qnat (len corpus))%Q
                   else ((1 - d) / Qnat (len corpus))%Q).
Proof.
  intros _ _ _ Hpage.
  destruct (dict_get_is_Some corpus page Hpage) as [links Hlinks].
  destruct (transition_model_get corpus page d links Hlinks) as (dist & Hrun & Hget).
  exists links, dist. split; [done|]. split; [done|]. intros p Hp.
  rewrite Hget, decide_True by done. done.
Qed.

Lemma transition_model_Ok (corpus : corpus_t) page links d :
  NoDup (keys corpus) → dict_get corpus page = Some links →
  transition_model corpus page d
  = Ok (map (λ p, (p, next_probability corpus links d p)) (keys corpus)).
Proof.
  intros Hnd Hlinks. unfold transition_model, next_probability.
  rewrite (getitem_Ok _ _ _ Hlinks). simpl.
  destruct (decide (links = ∅)); by rewrite dict_fill_nil.
Qed.

(** ** Rational arithmetic *)

Lemma Qnat_S n : (Qnat (S n) == Qnat n + 1)%Q.
Proof.
  unfold Qnat. rewrite Nat2Z.inj_succ, <- Z.add_1_r, inject_Z_plus. reflexivity.
Qed.

Lemma Qnat_pos n : (0 < n)%nat → (0 < Qnat n)%Q.
Proof.
  intros Hn. unfold Qnat. change 0%Q with (inject_Z 0).
  rewrite <- Zlt_Qlt. lia.
Qed.

Lemma Qnat_nonneg n : (0 <= Qnat n)%Q.
Proof. unfold Qnat. change 0%Q with (inject_Z 0). rewrite <- Zle_Qle. lia. Qed.

Lemma Qdiv_pos a b : (0 < a)%Q → (0 < b)%Q → (0 < a / b)%Q.
Proof.
  intros Ha Hb. apply Qlt_shift_div_l; [done|]. by rewrite Qmult_0_l.
Qed.

Lemma Qdiv_le_mono a b c : (0 < c)%Q → (a <= b)%Q → (a / c <= b / c)%Q.
Proof.
  intros Hc Hab. apply Qle_shift_div_l; [done|].
  unfold Qdiv. rewrite <- Qmult_assoc, (Qmult_comm (/ c)), Qmult_inv_r, Qmult_1_r; [done|].
  intros Heq. rewrite Heq in Hc. by apply Qlt_irrefl in Hc.
Qed.

Lemma Qsum_app l1 l2 : (Qsum (l1 ++ l2) == Qsum l1 + Qsum l2)%Q.
Proof. induction l1 as [|x l1 IH]; simpl; [ring | rewrite IH; ring]. Qed.

Lemma Qsum_const {X : Type} (c : Q) (xs : list X) :
  (Qsum (map (λ _, c) xs) == Qnat (length xs) * c)%Q.
Proof.
  induction xs as [|x xs IH]; [reflexivity|].
  cbn [map Qsum length]. rewrite IH, Qnat_S. ring.
Qed.

(** The sum of a two-valued weight: [a + b] on the members of [links], [b]
    elsewhere. *)
Lemma Qsum_two_valued (links : gset string) (a b : Q) (ks : list string) :
  (Qsum (map (λ k, if decide (k ∈ links) then a + b else b) ks)
   == Qnat (length (filter (.∈ links) ks)) * a + Qnat (length ks) * b)%Q.
Proof.
  induction ks as [|k ks IH]; [reflexivity|].
  cbn [map Qsum length]. rewrite IH, Qnat_S.
  destruct (decide (k ∈ links)) as [Hin|Hnin].
  - rewrite filter_cons_True by done. cbn [length]. rewrite Qnat_S. ring.
  - rewrite filter_cons_False by done. ring.
Qed.

Lemma length_filter_links (links : gset string) (ks : list string) :
  NoDup ks → (∀ l, l ∈ links → l ∈ ks) →
  length (filter (.∈ links) ks) = size links.
Proof.
  intros Hnd Hsub. apply Permutation_length, NoDup_Permutation.
  - by apply NoDup_filter.
  - apply NoDup_elements.
  - intros x. rewrite list_elem_of_filter, elem_of_elements.
    split; [by intros [? ?] | auto].
Qed.

Lemma size_links_pos (links : gset string) : links ≠ ∅ → (0 < size links)%nat.
Proof.
  intros Hne. destruct (decide (size links = 0%nat)) as [H0|]; [|lia].
  exfalso. apply Hne, leibniz_equiv. by apply size_empty_inv.
Qed.

Section next_probability_facts.
Variables (corpus : corpus_t) (links : gset string) (d : Q).
Hypothesis corpus_nonempty : (0 < len corpus)%nat.
Hypotheses (d_pos : (0 < d)%Q) (d_lt_1 : (d < 1)%Q).

Lemma teleport_pos : (0 < (1 - d) / Qnat (len corpus))%Q.
Proof. apply Qdiv_pos; [lra | by apply Qnat_pos]. Qed.

Lemma next_probability_lower p :
  ((1 - d) / Qnat (len corpus) <= next_probability corpus links d p)%Q.
Proof.
  pose proof (Qnat_pos _ corpus_nonempty) as HN.
  unfold next_probability, link_probability.
  destruct (decide (links = ∅)) as [|Hne].
  - apply Qdiv_le_mono; [done | lra].
  - destruct (decide (p ∈ links)); [|apply Qle_refl].
    pose proof (Qdiv_pos d (Qnat (size links)) d_pos
                  (Qnat_pos _ (size_links_pos _ Hne))).
    lra.
Qed.

Lemma next_probability_pos p : (0 < next_probability corpus links d p)%Q.
Proof.
  eapply Qlt_le_trans; [apply teleport_pos | apply next_probability_lower].
Qed.

Lemma next_probability_sum :
  NoDup (keys corpus) → (∀ l, l ∈ links → l ∈ keys corpus) →
  (Qsum (map (next_probability corpus links d) (keys corpus)) == 1)%Q.
Proof.
  intros Hnd Hsub.
  pose proof (Qnat_pos _ corpus_nonempty) as HN.
  assert (length (keys corpus) = len corpus) as Hlen
    by (unfold keys, len; apply length_fmap).
  unfold next_probability. destruct (decide (links = ∅)) as [|Hne].
  - rewrite Qsum_const, Hlen. field. lra.
  - unfold link_probability. rewrite Qsum_two_valued.
    rewrite length_filter_links, Hlen by done.
    pose proof (Qnat_pos _ (size_links_pos _ Hne)).
    field. split; lra.
Qed.
End next_probability_facts.

Lemma corpus_okb_sound (corpus : corpus_t) : corpus_okb corpus = true → corpus_ok corpus.
Proof.
  unfold corpus_okb. rewrite andb_true_iff, forallb_forall.
  intros [Hnd Hall]. apply bool_decide_eq_true in Hnd.
  split; [done | |].
  - intros page links Hin l Hl.
    apply list_elem_of_In, Hall, andb_true_iff in Hin as [_ Hclosed].
    rewrite forallb_forall in Hclosed.
    eapply bool_decide_eq_true, Hclosed, list_elem_of_In, elem_of_elements, Hl.
  - intros page links Hin.
    apply list_elem_of_In, Hall, andb_true_iff in Hin as [Hirr _].
    by apply bool_decide_eq_true in Hirr.
Qed.

Lemma corpus_ok_links (corpus : corpus_t) page links :
  corpus_ok corpus → dict_get corpus page = Some links →
  ∀ l, l ∈ links → l ∈ keys corpus.
Proof.
  intros Hok Hget. eapply corpus_closed; [done|]. by apply dict_get_elem_of.
Qed.

Lemma len_pos_of_key (corpus : corpus_t) page :
  page ∈ keys corpus → (0 < len corpus)%nat.
Proof.
  unfold keys, len. destruct corpus; simpl; [|lia].
  intros H. by apply elem_of_nil in H.
Qed.

(** C8: the distribution returned by [transition_model] has the pages of
    the corpus as its keys, its values are non-negative, and they sum to 1
    within 1e-9 (here: exactly, the arithmetic being exact). *)
Theorem transition_model_distribution (corpus : corpus_t) (page : string) (d : Q) :
  corpus ≠ [] → corpus_ok corpus → (0 < d)%Q → (d < 1)%Q → page ∈ keys corpus →
  ∃ distribution,
    transition_model corpus page d = Ok distribution ∧
    keys distribution = keys corpus ∧
    (∀ v, v ∈ values distribution → (0 <= v)%Q) ∧
    (Qabs (Qsum (values distribution) - 1) <= 1 # 1000000000)%Q.
Proof.
  intros _ Hok Hd0 Hd1 Hpage.
  destruct (dict_get_is_Some corpus page Hpage) as [links Hlinks].
  pose proof (len_pos_of_key _ _ Hpage) as HN.
  eexists. split; [by apply transition_model_Ok; [apply Hok|]|].
  rewrite keys_fill, values_fill. split; [done|]. split.
  - intros v [p [-> _]]%list_elem_of_fmap.
    by apply Qlt_le_weak, next_probability_pos.
  - assert (Qsum (map (next_probability corpus links d) (keys corpus)) == 1)%Q
      as Hsum.
    { apply next_probability_sum; [done | apply Hok |].
      by eapply corpus_ok_links. }
    rewrite Hsum. by vm_compute.
Qed.

Lemma transition_model_distribution_witness :
  ∃ distribution,
    transition_model corpus_html "2.html" (85 # 100) = Ok distribution ∧
    keys distribution = keys corpus_html ∧
    (∀ v, v ∈ values distribution → (0 <= v)%Q) ∧
    (Qabs (Qsum (values distribution) - 1) <= 1 # 1000000000)%Q.
Proof.
  apply (transition_model_distribution corpus_html "2.html" (85 # 100)).
  - discriminate.
  - apply corpus_okb_sound. vm_compute. reflexivity.
  - reflexivity.
  - reflexivity.
  - by_compute.
Defined.

Lemma transition_model_values_witness :
  ∃ links distribution,
    dict_get corpus_html "2.html" = Some links ∧
    transition_model corpus_html "2.html" (85 # 100) = Ok distribution ∧
    ∀ p, p ∈ keys corpus_html →
      dict_get distribution p =
        Some (if decide (links = ∅) then (1 / Qnat (len corpus_html))%Q
              else if decide (p ∈ links)
                   then ((85 # 100) / Qnat (size links)
                         + (1 - (85 # 100)) / Qnat (len corpus_html))%Q
                   else ((1 - (85 # 100)) / Qnat (len corpus_html))%Q).
Proof.
  apply (transition_model_values corpus_html "2.html" (85 # 100)).
  - discriminate.
  - reflexivity.
  - reflexivity.
  - by_compute.
Defined.

(** C10: the distribution returned by [transition_model] gives every page
    of the corpus a value, and every value of it is strictly positive, at
    least (1-d)/N: no page has zero probability of being the next hop. *)
Theorem transition_model_positive (corpus : corpus_t) (page : string) (d : Q) :
  corpus ≠ [] → (0 < d)%Q → (d < 1)%Q → page ∈ keys corpus →
  ∃ distribution,
    transition_model corpus page d = Ok distribution ∧
    (∀ p, p ∈ keys corpus →
       ∃ v, dict_get distribution p = Some v ∧
            (0 < v)%Q ∧ ((1 - d) / Qnat (len corpus) <= v)%Q) ∧
    (∀ p v, dict_get distribution p = Some v →
       (0 < v)%Q ∧ ((1 - d) / Qnat (len corpus) <= v)%Q).
Proof.
  intros _ Hd0 Hd1 Hpage.
  destruct (dict_get_is_Some corpus page Hpage) as [links Hlinks].
  destruct (transition_model_get corpus page d links Hlinks) as (dist & Hrun & Hget).
  pose proof (len_pos_of_key _ _ Hpage) as HN.
  exists dist. split; [done|]. split.
  - intros p Hp. exists (next_probability corpus links d p).
    rewrite Hget, decide_True by done. split; [done|].
    split; [by apply next_probability_pos | by apply next_probability_lower].
  - intros p v. rewrite Hget.
    case_decide; [|done]. intros [= <-].
    split; [by apply next_probability_pos | by apply next_probability_lower].
Qed.

Lemma transition_model_positive_witness :
  ∃ distribution,
    transition_model corpus_dangling "C" (85 # 100) = Ok distribution ∧
    (∀ p, p ∈ keys corpus_dangling →
       ∃ v, dict_get distribution p = Some v ∧
            (0 < v)%Q ∧ ((1 - (85 # 100)) / Qnat (len corpus_dangling) <= v)%Q) ∧
    (∀ p v, dict_get distribution p = Some v →
       (0 < v)%Q ∧ ((1 - (85 # 100)) / Qnat (len corpus_dangling) <= v)%Q).
Proof.
  apply (transition_model_positive corpus_dangling "C" (85 # 100)).
  - discriminate.
  - reflexivity.
  - reflexivity.
  - by_compute.
Defined.

(** ** The random module: [choices] returns a member of the population *)

Lemma list_index_Ok {X : Type} (xs : list X) i :
  (i < length xs)%nat → ∃ x, list_index xs i = Ok x ∧ x ∈ xs.
Proof.
  intros Hi. destruct (lookup_lt_is_Some_2 xs i Hi) as [x Hx].
  exists x. unfold list_index. rewrite Hx. split; [done|].
  by eapply list_elem_of_lookup_2.
Qed.

Lemma bisect_loop_range fuel a x lo hi :
  (lo ≤ hi)%nat → (hi ≤ length a)%nat →
  ∃ i, bisect_loop fuel a x lo hi = Ok i ∧ (lo ≤ i ≤ hi)%nat.
Proof.
  revert lo hi. induction fuel as [|fuel IH]; intros lo hi Hlo Hhi; cbn [bisect_loop].
  - exists lo. split; [done | lia].
  - destruct (decide (lo < hi)%nat) as [Hlt|]; [|exists lo; split; [done | lia]].
    assert (lo ≤ (lo + hi) `div` 2 < hi)%nat as [Hmid1 Hmid2].
    { split; [apply Nat.div_le_lower_bound | apply Nat.Div0.div_lt_upper_bound]; lia. }
    destruct (list_index_Ok a ((lo + hi) `div` 2)) as (a_mid & -> & _); [lia|].
    cbn [mbind result_bind]. destruct (Qlt_bool x a_mid).
    + destruct (IH lo ((lo + hi) `div` 2)%nat) as (i & -> & ?); [lia | lia |].
      exists i. split; [done | lia].
    + destruct (IH ((lo + hi) `div` 2 + 1)%nat hi) as (i & -> & ?); [lia | lia |].
      exists i. split; [done | lia].
Qed.

Lemma length_accumulate_from acc ws : length (accumulate_from acc ws) = length ws.
Proof. revert acc. induction ws as [|w ws IH]; intros acc; simpl; [done | by rewrite IH]. Qed.

Lemma length_accumulate ws : length (accumulate ws) = length ws.
Proof. destruct ws; simpl; [done | by rewrite length_accumulate_from]. Qed.

Lemma last_accumulate_from_pos acc ws :
  (0 < acc)%Q → (∀ w, w ∈ ws → (0 < w)%Q) →
  ∃ total, last (acc :: accumulate_from acc ws) = Some total ∧ (0 < total)%Q.
Proof.
  revert acc. induction ws as [|w ws IH]; intros acc Hacc Hws.
  - exists acc. by split.
  - destruct (IH (acc + w)%Q) as (total & Hlast & Hpos).
    + pose proof (Hws w (list_elem_of_here _ _)). lra.
    + intros w' Hw'. by apply Hws, list_elem_of_further.
    + exists total. split; [|done]. simpl in *. done.
Qed.

Lemma choices_Ok raw (population : list string) (weights : list Q) :
  population ≠ [] → length weights = length population →
  (∀ w, w ∈ weights → (0 < w)%Q) →
  ∃ page, choices raw population weights = Ok page ∧ page ∈ population.
Proof.
  intros Hne Hlen Hpos. unfold choices.
  rewrite decide_True by (by rewrite length_accumulate).
  destruct weights as [|w ws]; [by destruct population|].
  destruct (last_accumulate_from_pos w ws) as (total & Hlast & Htotal).
  { apply Hpos, list_elem_of_here. }
  { intros w' Hw'. by apply Hpos, list_elem_of_further. }
  unfold accumulate. rewrite Hlast.
  replace (Qle_bool total 0) with false; last first.
  { symmetry. apply not_true_is_false. rewrite Qle_bool_iff. lra. }
  unfold bisect_right.
  destruct (bisect_loop_range (length population - 1 - 0)
              (w :: accumulate_from w ws) (random_float raw * total)%Q
              0 (length population - 1)) as (i & -> & Hi).
  { lia. }
  { simpl. rewrite length_accumulate_from. simpl in Hlen. lia. }
  simpl. apply list_index_Ok.
  destruct population; [done | simpl in *; lia].
Qed.

(** ** sample_pagerank *)

Lemma visit_count_cons p q visits :
  visit_count p (q :: visits)
  = ((if decide (q = p) then 1 else 0) + visit_count p visits)%Z.
Proof.
  unfold visit_count. destruct (decide (q = p)) as [Heq|Hne].
  - rewrite filter_cons_True by done. cbn [length]. lia.
  - rewrite filter_cons_False by done. lia.
Qed.

Lemma transition_model_weights (corpus : corpus_t) page d :
  NoDup (keys corpus) → (0 < d)%Q → (d < 1)%Q → page ∈ keys corpus →
  ∃ distribution,
    transition_model corpus page d = Ok distribution ∧
    length (values distribution) = length (keys corpus) ∧
    ∀ w, w ∈ values distribution → (0 < w)%Q.
Proof.
  intros Hnd Hd0 Hd1 Hpage.
  destruct (dict_get_is_Some corpus page Hpage) as [links Hlinks].
  eexists. split; [by apply transition_model_Ok|].
  rewrite values_fill. split; [by rewrite length_map|].
  intros w [p [-> _]]%list_elem_of_fmap.
  apply next_probability_pos; [|done|done]. by eapply len_pos_of_key.
Qed.

Section sample_loop.
Variables (corpus : corpus_t) (d : Q) (rnd : random_source).
Hypothesis keys_nodup : NoDup (keys corpus).
Hypotheses (d_pos : (0 < d)%Q) (d_lt_1 : (d < 1)%Q).

Lemma sample_step_Ok cur (data : dict Z) i :
  cur ∈ keys corpus → keys data = keys corpus →
  ∃ distribution page count,
    transition_model corpus cur d = Ok distribution ∧
    choices (rnd (S i)) (keys corpus) (values distribution) = Ok page ∧
    page ∈ keys corpus ∧
    dict_get data page = Some count ∧
    sample_step corpus d (keys corpus) rnd (cur, data) i
    = Ok (page, dict_set data page (count + 1)%Z).
Proof.
  intros Hcur Hkeys.
  destruct (transition_model_weights corpus cur d)
    as (dist & Hdist & Hlen & Hpos); [done..|].
  destruct (choices_Ok (rnd (S i)) (keys corpus) (values dist))
    as (page & Hpage & Hin); [|done|done|].
  { intros Hnil. rewrite Hnil in Hcur. by apply elem_of_nil in Hcur. }
  destruct (dict_get_is_Some data page) as [count Hcount]; [by rewrite Hkeys|].
  exists dist, page, count. repeat split; try done.
  unfold sample_step. cbn [fst snd]. rewrite Hdist. cbn [mbind result_bind].
  rewrite Hpage. cbn [mbind result_bind].
  by rewrite (getitem_Ok _ _ _ Hcount).
Qed.

Lemma sample_loop_Ok k : ∀ start cur (data : dict Z),
  cur ∈ keys corpus → keys data = keys corpus →
  ∃ visits final data',
    for_in (seq start k) (sample_step corpus d (keys corpus) rnd) (cur, data)
    = Ok (final, data') ∧
    length visits = k ∧
    (∀ q, q ∈ visits → q ∈ keys corpus) ∧
    (∀ i prev page,
       (cur :: visits) !! i = Some prev → visits !! i = Some page →
       ∃ distribution,
         transition_model corpus prev d = Ok distribution ∧
         choices (rnd (S (start + i))) (keys corpus) (values distribution)
         = Ok page) ∧
    keys data' = keys corpus ∧
    (∀ p c, dict_get data p = Some c →
            dict_get data' p = Some (c + visit_count p visits)%Z).
Proof.
  induction k as [|k IH]; intros start cur data Hcur Hkeys.
  - exists [], cur, data. repeat split; try done.
    + intros q Hq. by apply elem_of_nil in Hq.
    + intros p c Hc. rewrite Hc. unfold visit_count. simpl. f_equal. lia.
  - destruct (sample_step_Ok cur data start Hcur Hkeys)
      as (dist & page & count & Hdist & Hpage & Hin & Hcount & Hstep).
    destruct (IH (S start) page (dict_set data page (count + 1)%Z))
      as (visits & final & data' & Hrun & Hlen & Hvis & Hchain & Hkeys' & Hcnt).
    { done. }
    { rewrite keys_dict_set_in; [done | by rewrite Hkeys]. }
    exists (page :: visits), final, data'. repeat split; try done.
    + cbn [seq for_in]. rewrite Hstep. cbn [mbind result_bind]. done.
    + simpl. by rewrite Hlen.
    + intros q [->|Hq]%elem_of_cons; auto.
    + intros [|i] prev page'; simpl.
      * intros [= <-] [= <-]. exists dist. by rewrite Nat.add_0_r.
      * intros Hprev Hnext.
        destruct (Hchain i prev page' Hprev Hnext) as (dist' & ? & ?).
        exists dist'. split; [done|].
        by replace (start + S i)%nat with (S start + i)%nat by lia.
    + intros p c Hc. rewrite visit_count_cons.
      destruct (decide (page = p)) as [->|Hne].
      * rewrite Hc in Hcount. injection Hcount as <-.
        rewrite (Hcnt p (c + 1)%Z) by apply dict_get_set_eq. f_equal. lia.
      * rewrite (Hcnt p c) by (by rewrite dict_get_set_ne). f_equal.
Qed.
End sample_loop.

Lemma dict_get_of_elem {V : Type} (d : dict V) k v :
  NoDup (keys d) → (k, v) ∈ d → dict_get d k = Some v.
Proof.
  unfold keys. induction d as [|[k' v'] d IH]; simpl.
  - intros _ H. by apply elem_of_nil in H.
  - intros [Hfresh Hnd]%NoDup_cons [[= -> ->]|Hin]%elem_of_cons.
    + by rewrite decide_True.
    + rewrite decide_False; [by apply IH|]. intros ->. apply Hfresh.
      apply list_elem_of_fmap. by exists (k', v).
Qed.

(** A dict is determined by its keys, in order, and what it returns. *)
Lemma dict_ext {V : Type} (d : dict V) (f : string → V) :
  NoDup (keys d) → (∀ k, k ∈ keys d → dict_get d k = Some (f k)) →
  d = map (λ k, (k, f k)) (keys d).
Proof.
  unfold keys. induction d as [|[k v] d IH]; simpl; [done|].
  intros [Hfresh Hnd]%NoDup_cons Hget. f_equal.
  - specialize (Hget k (list_elem_of_here _ _)).
    rewrite decide_True in Hget by done. by injection Hget as ->.
  - apply IH; [done|]. intros k' Hk'.
    specialize (Hget k' (list_elem_of_further _ _ _ Hk')).
    rewrite decide_False in Hget; [done|]. by intros ->.
Qed.

Lemma divide_all_Ok (data : dict Z) (n : Z) :
  n ≠ 0%Z →
  divide_all data n
  = Ok (map (λ entry, (entry.1, (inject_Z entry.2 / inject_Z n)%Q)) data).
Proof.
  intros Hn. induction data as [|[k c] data IH]; [done|].
  cbn [divide_all map fst snd]. unfold truediv.
  replace (Qeq_bool (inject_Z n) 0) with false; last first.
  { symmetry. apply not_true_is_false. rewrite Qeq_bool_iff.
    change 0%Q with (inject_Z 0). by rewrite inject_Z_injective. }
  cbn [mbind result_bind]. by rewrite IH.
Qed.

Lemma Qsum_ext {X : Type} (f g : X → Q) xs :
  (∀ x, x ∈ xs → (f x == g x)%Q) → (Qsum (map f xs) == Qsum (map g xs))%Q.
Proof.
  induction xs as [|x xs IH]; intros Hfg; [reflexivity|].
  cbn [map Qsum]. pose proof (Hfg x (list_elem_of_here _ _)) as Hx.
  rewrite Hx, IH; [reflexivity|].
  intros y Hy. by apply Hfg, list_elem_of_further.
Qed.

Lemma Qsum_plus {X : Type} (f g : X → Q) xs :
  (Qsum (map (λ x, f x + g x) xs) == Qsum (map f xs) + Qsum (map g xs))%Q.
Proof. induction xs as [|x xs IH]; cbn [map Qsum]; [ring | rewrite IH; ring]. Qed.

Lemma Qsum_div {X : Type} (f : X → Q) (c : Q) xs :
  (Qsum (map (λ x, f x / c) xs) == Qsum (map f xs) / c)%Q.
Proof.
  unfold Qdiv. induction xs as [|x xs IH]; cbn [map Qsum]; [ring | rewrite IH; ring].
Qed.

(** Exactly one key of a dict equals a given key of it. *)
Lemma Qsum_indicator (q : string) ks :
  NoDup ks →
  (Qsum (map (λ k, inject_Z (if decide (q = k) then 1 else 0)) ks)
   == if decide (q ∈ ks) then 1 else 0)%Q.
Proof.
  induction ks as [|k ks IH]; [reflexivity|].
  intros [Hfresh Hnd]%NoDup_cons. cbn [map Qsum]. rewrite IH by done.
  destruct (decide (q = k)) as [->|Hne].
  - rewrite decide_False by done. rewrite decide_True by apply list_elem_of_here.
    reflexivity.
  - destruct (decide (q ∈ ks)) as [Hin|Hnin].
    + rewrite decide_True by (by apply list_elem_of_further). reflexivity.
    + rewrite decide_False by (rewrite elem_of_cons; tauto). reflexivity.
Qed.

(** The counters add up to the number of visits. *)
Lemma Qsum_visit_count ks visits :
  NoDup ks → (∀ q, q ∈ visits → q ∈ ks) →
  (Qsum (map (λ k, inject_Z (visit_count k visits)) ks) == Qnat (length visits))%Q.
Proof.
  intros Hnd. induction visits as [|q visits IH]; intros Hsub.
  - change (λ k : string, inject_Z (visit_count k [])) with (λ _ : string, 0%Q).
    rewrite Qsum_const. change (Qnat (length [])) with 0%Q. ring.
  - cbn [length]. rewrite Qnat_S, <- IH by (intros; apply Hsub; set_solver).
    rewrite (Qsum_ext _ (λ k, inject_Z (if decide (q = k) then 1 else 0)
                              + inject_Z (visit_count k visits))%Q).
    + rewrite Qsum_plus, Qsum_indicator by done.
      rewrite decide_True by apply Hsub, list_elem_of_here. ring.
    + intros k _. rewrite visit_count_cons, inject_Z_plus. reflexivity.
Qed.

(** Fuel that is not used does not matter. *)
Lemma iterate_loop_more_fuel fuel k rnd (corpus : corpus_t) d N data change r :
  iterate_loop fuel rnd corpus d N data change = Some r →
  iterate_loop (fuel + k) rnd corpus d N data change = Some r.
Proof.
  revert rnd data change.
  induction fuel as [|fuel IH]; intros rnd data change; cbn [iterate_loop Nat.add].
  - destruct (keep_going change) eqn:Hgo; [done|].
    intros <-. destruct k; cbn [iterate_loop]; by rewrite Hgo.
  - destruct (keep_going change); [|done].
    destruct (iterate_body _ _ _ _ _) as [[data' change']|e]; [apply IH | done].
Qed.

Lemma iterate_pagerank_more_fuel fuel k rnd (corpus : corpus_t) d r :
  iterate_pagerank fuel rnd corpus d = Some r →
  iterate_pagerank (fuel + k) rnd corpus d = Some r.
Proof. apply iterate_loop_more_fuel. Qed.

(** C1: on the corpus of one page without links, a pass of the code leaves
    the page with (1-d)/N = 0.15, where the formula of the claim, which
    hands the rank of that page back to all N pages, gives 1: the code has
    no term for the pages without links. *)
Theorem relax_drops_dangling_rank :
  ∃ data,
    relax corpus_single (85 # 100) (len corpus_single) (initial_ranks corpus_single)
    = Ok data ∧
    keys data = ["1.html"] ∧
    (rank_of data "1.html" == 15 # 100)%Q ∧
    (spec_new_rank corpus_single (85 # 100) (initial_ranks corpus_single) "1.html"
     == 1)%Q.
Proof.
  eexists. split; [vm_compute; reflexivity|]. by vm_compute.
Qed.

(** C2: on A -> B, B -> C, C -> B with a random source that always selects
    page A, the loop stops after its second pass, because the rank of A did
    not change in it, although the rank of B moved by more than 0.001 in
    that same pass. *)
Theorem iterate_stops_on_one_page (fuel : nat) :
  ∃ data1 data2 previous current,
    relax corpus_abc (85 # 100) 3 (initial_ranks corpus_abc) = Ok data1 ∧
    relax corpus_abc (85 # 100) 3 data1 = Ok data2 ∧
    iterate_pagerank (2 + fuel) (λ _, 0%N) corpus_abc (85 # 100) = Some (Ok data2) ∧
    dict_get data1 "B" = Some previous ∧
    dict_get data2 "B" = Some current ∧
    (1 # 1000 < Qabs (current - previous))%Q.
Proof.
  do 4 eexists.
  split; [vm_compute; reflexivity|].
  split; [vm_compute; reflexivity|].
  split; [apply (iterate_pagerank_more_fuel 2 fuel); vm_compute; reflexivity|].
  split; [vm_compute; reflexivity|].
  split; [vm_compute; reflexivity|].
  by vm_compute.
Qed.

(** C5: on the corpus of one page without links, [iterate_pagerank] returns
    the rank 0.15 for that page: the returned values do not sum to 1. *)
Theorem iterate_loses_mass (fuel : nat) :
  ∃ data,
    iterate_pagerank (2 + fuel) (λ _, 0%N) corpus_single (85 # 100) = Some (Ok data) ∧
    keys data = ["1.html"] ∧
    (Qsum (values data) == 15 # 100)%Q ∧
    (1 # 1000 < Qabs (Qsum (values data) - 1))%Q.
Proof.
  eexists.
  split; [apply (iterate_pagerank_more_fuel 2 fuel); vm_compute; reflexivity|].
  by vm_compute.
Qed.

(** C3, refuted as stated: on the same corpus and damping factor, a random
    source that always selects page A and one that selects B, B, then A make
    [iterate_pagerank] return different ranks for page B. *)
Lemma iterate_depends_on_draws :
  ∃ data1 data2,
    iterate_pagerank 100 (λ _, 0%N) corpus_abc (85 # 100) = Some (Ok data1) ∧
    iterate_pagerank 100 (λ k, match k with 2%nat => 0 | _ => 1 end)%N
      corpus_abc (85 # 100) = Some (Ok data2) ∧
    ¬ (rank_of data1 "B" == rank_of data2 "B")%Q.
Proof.
  do 2 eexists.
  split; [vm_compute; reflexivity|].
  split; [vm_compute; reflexivity|].
  by vm_compute.
Qed.

(** C4, refuted as stated: in the first pass on A -> B, B -> C, C -> B the
    rank written for C is not the one that the snapshot of the previous
    ranks gives, and the same mapping inserted in the opposite order gets a
    different rank for B. *)
Lemma relax_depends_on_order :
  ∃ data_abc data_cba,
    relax corpus_abc (85 # 100) 3 (initial_ranks corpus_abc) = Ok data_abc ∧
    relax corpus_cba (85 # 100) 3 (initial_ranks corpus_cba) = Ok data_cba ∧
    ¬ (rank_of data_abc "C"
       == spec_new_rank corpus_abc (85 # 100) (initial_ranks corpus_abc) "C")%Q ∧
    ¬ (rank_of data_abc "B" == rank_of data_cba "B")%Q.
Proof.
  do 2 eexists.
  split; [vm_compute; reflexivity|].
  split; [vm_compute; reflexivity|].
  split; by vm_compute.
Qed.

(** C6, refuted as stated: with n = -1 on a non-empty corpus
    [sample_pagerank] raises nothing and returns a vector of zeros. *)
Lemma sample_negative_count_returns :
  sample_pagerank (λ _, 0%N) corpus_html (85 # 100) (-1)
  = Ok [("1.html", 0%Q); ("2.html", 0%Q); ("3.html", 0%Q)].
Proof. vm_compute. reflexivity. Qed.

(** ** One pass of the relaxation, in place *)

Lemma inbound_sum_from (corpus : corpus_t) (data : dict Q) file ks : ∀ acc,
  (∀ k, k ∈ ks → k ∈ keys data ∧ k ∈ keys corpus) →
  ∃ sum_i,
    for_in ks
      (λ sum_i file_i,
         links ← getitem corpus file_i;
         if decide (file ∈ links) then
           rank ← getitem data file_i;
           Ok (sum_i + rank / Qnat (size links))%Q
         else Ok sum_i) acc = Ok sum_i ∧
    (sum_i == acc + Qsum (map (inbound_term corpus data file) ks))%Q.
Proof.
  induction ks as [|k ks IH]; intros acc Hks.
  - exists acc. split; [done|]. cbn [map Qsum]. lra.
  - destruct (Hks k (list_elem_of_here _ _)) as [Hdata Hcorpus].
    destruct (dict_get_is_Some _ _ Hdata) as [rank Hrank].
    destruct (dict_get_is_Some _ _ Hcorpus) as [links Hlinks].
    cbn [for_in map Qsum]. unfold inbound_term at 1, rank_of.
    rewrite (getitem_Ok _ _ _ Hlinks), Hlinks, Hrank.
    cbn [mbind result_bind default from_option id].
    destruct (decide (file ∈ links)).
    + rewrite (getitem_Ok _ _ _ Hrank). cbn [mbind result_bind].
      destruct (IH (acc + rank / Qnat (size links))%Q) as (s & Hs & Heq).
      { intros k' Hk'. by apply Hks, list_elem_of_further. }
      exists s. split; [done|]. rewrite Heq. ring.
    + destruct (IH acc) as (s & Hs & Heq).
      { intros k' Hk'. by apply Hks, list_elem_of_further. }
      exists s. split; [done|]. rewrite Heq. ring.
Qed.

Lemma inbound_sum_Ok (corpus : corpus_t) (data : dict Q) file :
  (∀ k, k ∈ keys data → k ∈ keys corpus) →
  ∃ sum_i,
    inbound_sum corpus data file = Ok sum_i ∧
    (sum_i == Qsum (map (inbound_term corpus data file) (keys data)))%Q.
Proof.
  intros Hsub. destruct (inbound_sum_from corpus data file (keys data) 0%Q)
    as (s & Hs & Heq); [by auto|].
  exists s. split; [done|]. rewrite Heq. ring.
Qed.

Lemma dict_set_middle {V : Type} (pre post : dict V) k v v' :
  k ∉ keys pre → dict_set (pre ++ (k, v) :: post) k v' = pre ++ (k, v') :: post.
Proof.
  unfold keys. induction pre as [|[k0 v0] pre IH]; simpl.
  - intros _. by rewrite decide_True.
  - intros [Hne Hfresh]%not_elem_of_cons. rewrite decide_False by done.
    by rewrite IH.
Qed.

Lemma keys_app {V : Type} (d1 d2 : dict V) : keys (d1 ++ d2) = keys d1 ++ keys d2.
Proof. unfold keys. apply fmap_app. Qed.

Lemma relax_page_Ok (corpus : corpus_t) d N (data : dict Q) file sum_i :
  inbound_sum corpus data file = Ok sum_i →
  relax_page corpus d N data file
  = Ok (dict_set data file ((1 - d) / Qnat N + d * sum_i)%Q).
Proof. unfold relax_page. by intros ->. Qed.

Section relax_from.
Variables (corpus : corpus_t) (d : Q) (N : nat).

(** The pass from the point where the entries [pre] are already written
    and the entries [post] are still to be. *)
Lemma relax_from : ∀ (post pre : dict Q),
  NoDup (keys (pre ++ post)) →
  (∀ k, k ∈ keys (pre ++ post) → k ∈ keys corpus) →
  ∃ post',
    for_in (keys post) (relax_page corpus d N) (pre ++ post) = Ok (pre ++ post') ∧
    keys post' = keys post ∧
    ∀ j file, keys post !! j = Some file →
      ∃ sum_i,
        inbound_sum corpus (pre ++ take j post' ++ drop j post) file = Ok sum_i ∧
        post' !! j = Some (file, ((1 - d) / Qnat N + d * sum_i)%Q).
Proof.
  induction post as [|[file v] post IH]; intros pre Hnd Hsub.
  - exists []. split; [done|]. split; [done|]. intros j file Hj.
    by destruct j.
  - destruct (inbound_sum_Ok corpus (pre ++ (file, v) :: post) file Hsub)
      as (s & Hs & _).
    set (rank := ((1 - d) / Qnat N + d * s)%Q).
    assert (keys ((pre ++ [(file, rank)]) ++ post) = keys (pre ++ (file, v) :: post))
      as Hkeys by (by rewrite <- app_assoc, !keys_app).
    destruct (IH (pre ++ [(file, rank)])) as (post' & Hrun & Hkeys' & Hpost').
    { by rewrite Hkeys. }
    { intros k. rewrite Hkeys. apply Hsub. }
    exists ((file, rank) :: post'). split; [|split].
    + change (keys ((file, v) :: post)) with (file :: keys post).
      cbn [for_in]. rewrite (relax_page_Ok _ _ _ _ _ _ Hs). cbn [mbind result_bind].
      rewrite dict_set_middle.
      * fold rank. rewrite (cons_middle _ pre post), app_assoc, Hrun.
        by rewrite <- app_assoc.
      * rewrite keys_app in Hnd. apply NoDup_app in Hnd as (_ & Hdisj & _).
        intros Hin. apply (Hdisj _ Hin), list_elem_of_here.
    + unfold keys in *. simpl. by f_equal.
    + intros [|j] file'.
      * intros [= <-]. exists s. by split.
      * intros Hj. destruct (Hpost' j file' Hj) as (s' & Hs' & Hget).
        exists s'. split; [|done].
        by rewrite <- app_assoc in Hs'.
Qed.
End relax_from.

(** C4, as the code has it: a pass rewrites the ranks one page at a time,
    in the order of the mapping and in place.  The rank written for the
    page at position [i] is (1-d)/N + d * sum_i, where the inner loop reads
    the mapping as it stands at that moment: its first [i] entries already
    hold the ranks of this pass, the others those of the pass before. *)
Theorem relax_in_place (corpus : corpus_t) (d : Q) (N : nat) (data : dict Q) :
  NoDup (keys data) → keys data = keys corpus →
  ∃ data',
    relax corpus d N data = Ok data' ∧
    keys data' = keys data ∧
    ∀ i file, keys data !! i = Some file →
      ∃ sum_i,
        inbound_sum corpus (take i data' ++ drop i data) file = Ok sum_i ∧
        (sum_i == Qsum (map (inbound_term corpus (take i data' ++ drop i data) file)
                            (keys data)))%Q ∧
        dict_get data' file = Some ((1 - d) / Qnat N + d * sum_i)%Q.
Proof.
  intros Hnd Hkeys.
  destruct (relax_from corpus d N data []) as (data' & Hrun & Hkeys' & Hpass).
  { done. }
  { intros k Hk. by rewrite <- Hkeys. }
  exists data'. split; [done|]. split; [done|]. intros i file Hi.
  destruct (Hpass i file Hi) as (s & Hs & Hget). simpl in Hs.
  assert (keys (take i data' ++ drop i data) = keys data) as Hmix.
  { rewrite keys_app. unfold keys in *.
    by rewrite fmap_take, fmap_drop, Hkeys', take_drop. }
  exists s. split; [done|]. split.
  - destruct (inbound_sum_Ok corpus (take i data' ++ drop i data) file)
      as (s' & Hs' & Heq).
    + intros k. by rewrite Hmix, Hkeys.
    + rewrite Hs in Hs'. injection Hs' as <-. by rewrite <- Hmix.
  - apply dict_get_of_elem; [by rewrite Hkeys'|].
    by eapply list_elem_of_lookup_2.
Qed.

Lemma relax_in_place_witness :
  ∃ data',
    relax corpus_abc (85 # 100) 3 (initial_ranks corpus_abc) = Ok data' ∧
    keys data' = keys (initial_ranks corpus_abc) ∧
    ∀ i file, keys (initial_ranks corpus_abc) !! i = Some file →
      ∃ sum_i,
        inbound_sum corpus_abc (take i data' ++ drop i (initial_ranks corpus_abc)) file
        = Ok sum_i ∧
        (sum_i == Qsum (map (inbound_term corpus_abc
                               (take i data' ++ drop i (initial_ranks corpus_abc)) file)
                            (keys (initial_ranks corpus_abc))))%Q ∧
        dict_get data' file = Some ((1 - (85 # 100)) / Qnat 3 + (85 # 100) * sum_i)%Q.
Proof.
  apply (relax_in_place corpus_abc (85 # 100) 3 (initial_ranks corpus_abc)).
  - by_compute.
  - vm_compute. reflexivity.
Defined.

(** ** Invalid input *)

Lemma dict_set_cons {V : Type} (d : dict V) k v :
  ∃ entry d', dict_set d k v = entry :: d'.
Proof.
  destruct d as [|[k' v'] d]; simpl; [by eauto|].
  destruct (decide (k = k')); by eauto.
Qed.

Lemma dict_fill_cons {V : Type} (f : string → V) ks : ∀ entry (d : dict V),
  ∃ entry' d', foldl (λ d k, dict_set d k (f k)) (entry :: d) ks = entry' :: d'.
Proof.
  induction ks as [|k ks IH]; intros entry d; simpl; [by eauto|].
  destruct (decide (k = entry.1)); destruct entry as [k0 v0]; simpl in *.
  - rewrite decide_True by done. apply IH.
  - rewrite decide_False by done. apply IH.
Qed.

(** C6, as the code has it: no input is validated and there is no
    InvalidInput error.  On an empty corpus [sample_pagerank] and
    [iterate_pagerank] raise the ValueError of [randrange] on an empty
    range; on a non-empty corpus with n = 0 [sample_pagerank] raises
    ZeroDivisionError.  No ranks are returned in these cases. *)
Theorem invalid_input_raises (rnd : random_source) (d : Q) (n : Z) (fuel : nat)
    (entry : string * gset string) (corpus : corpus_t) :
  sample_pagerank rnd [] d n = Raise ValueError ∧
  iterate_pagerank (S fuel) rnd [] d = Some (Raise ValueError) ∧
  sample_pagerank rnd (entry :: corpus) d 0 = Raise ZeroDivisionError.
Proof.
  split; [done|]. split; [done|].
  unfold sample_pagerank, sample_walk, randrange.
  rewrite decide_False by (simpl; lia). cbn [mbind result_bind].
  destruct (list_index_Ok (keys (entry :: corpus))
              (N.to_nat (rnd 0%nat `mod` N.of_nat (len (entry :: corpus)))))
    as (seed & -> & _).
  { unfold keys, len. rewrite length_fmap.
    pose proof (N.mod_upper_bound (rnd 0%nat) (N.of_nat (length (entry :: corpus)))).
    simpl in *. lia. }
  cbn [mbind result_bind Z.to_nat seq for_in snd].
  change (keys (entry :: corpus)) with (entry.1 :: keys corpus).
  cbn [foldl dict_set].
  destruct (dict_fill_cons (λ _, 0%Z) (keys corpus) (entry.1, 0%Z) [])
    as ([k c] & data & ->).
  done.
Qed.


(** ** crawl *)

Lemma keys_dict_set {V : Type} (d : dict V) k v :
  keys (dict_set d k v) = if decide (k ∈ keys d) then keys d else keys d ++ [k].
Proof.
  case_decide as Hin.
  - by apply keys_dict_set_in.
  - rewrite dict_set_fresh by done. rewrite keys_app. done.
Qed.

Lemma NoDup_keys_dict_set {V : Type} (d : dict V) k v :
  NoDup (keys d) → NoDup (keys (dict_set d k v)).
Proof.
  intros Hnd. rewrite keys_dict_set. case_decide as Hin; [done|].
  apply NoDup_app. split; [done|]. split; [|apply NoDup_singleton].
  intros x Hx ->%list_elem_of_singleton. done.
Qed.

Lemma elem_of_dict_set {V : Type} (d : dict V) k v entry :
  entry ∈ dict_set d k v → entry ∈ d ∨ entry = (k, v).
Proof.
  induction d as [|[k' v'] d IH]; simpl.
  - intros ->%list_elem_of_singleton. by right.
  - destruct (decide (k = k')) as [->|Hne].
    + intros [->|Hin]%elem_of_cons; [by right|]. left. by apply list_elem_of_further.
    + intros [->|Hin]%elem_of_cons; [left; apply list_elem_of_here|].
      destruct (IH Hin) as [?|?]; [left; by apply list_elem_of_further | by right].
Qed.

(** What the first loop of [crawl] leaves in [pages]. *)
Lemma crawl_extract_from (directory : directory_t) : ∀ (pages : corpus_t),
  NoDup (keys pages) → (∀ k links, (k, links) ∈ pages → k ∉ links) →
  let pages' :=
    foldl (λ pages entry,
             if endswith entry.1 ".html"
             then dict_set pages entry.1 (list_to_set entry.2 ∖ {[entry.1]})
             else pages) pages directory in
  NoDup (keys pages') ∧
  (∀ k links, (k, links) ∈ pages' → k ∉ links) ∧
  (∀ k, k ∈ keys pages' ↔
        k ∈ keys pages ∨ (k ∈ directory.*1 ∧ endswith k ".html" = true)).
Proof.
  induction directory as [|[name hrefs] directory IH]; intros pages Hnd Hirr; simpl.
  - split; [done|]. split; [done|]. intros k. split; [by left|].
    intros [?|[Hin _]]; [done | by apply elem_of_nil in Hin].
  - destruct (endswith name ".html") eqn:Hhtml.
    + destruct (IH (dict_set pages name (list_to_set hrefs ∖ {[name]})))
        as (Hnd' & Hirr' & Hkeys').
      { by apply NoDup_keys_dict_set. }
      { intros k links [Hin|[= -> ->]]%elem_of_dict_set; [by eapply Hirr|].
        intros [_ Hself]%elem_of_difference. apply Hself.
        by apply elem_of_singleton. }
      split; [done|]. split; [done|]. intros k. rewrite Hkeys', keys_dict_set.
      case_decide as Hname;
        rewrite ?elem_of_app, ?list_elem_of_singleton, elem_of_cons.
      * split; [tauto|]. intros [Hk|[[Hk|Hk] Hh]]; [tauto | subst; tauto | tauto].
      * split; [intros [[Hk|Hk]|Hk]; [tauto | subst; tauto | tauto] |].
        intros [Hk|[[Hk|Hk] Hh]]; tauto.
    + destruct (IH pages Hnd Hirr) as (Hnd' & Hirr' & Hkeys').
      split; [done|]. split; [done|]. intros k. rewrite Hkeys', elem_of_cons.
      split; [tauto|]. intros [Hk|[[Hk|Hk] Hh]]; [tauto | congruence | tauto].
Qed.

Lemma crawl_extract_ok (directory : directory_t) :
  NoDup (keys (crawl_extract directory)) ∧
  (∀ k links, (k, links) ∈ crawl_extract directory → k ∉ links) ∧
  (∀ k, k ∈ keys (crawl_extract directory) ↔
        k ∈ directory.*1 ∧ endswith k ".html" = true).
Proof.
  destruct (crawl_extract_from directory []) as (Hnd & Hirr & Hkeys).
  { apply NoDup_nil_2. }
  { intros k links Hin. by apply elem_of_nil in Hin. }
  split; [done|]. split; [done|]. intros k. rewrite (Hkeys k).
  split; [|tauto]. intros [Hin|?]; [by apply elem_of_nil in Hin | done].
Qed.

Lemma crawl_restrict_Ok (pages : corpus_t) k links :
  dict_get pages k = Some links →
  crawl_restrict pages k
  = Ok (dict_set pages k (filter (λ link, link ∈ keys pages) links)).
Proof. intros Hget. unfold crawl_restrict. by rewrite (getitem_Ok _ _ _ Hget). Qed.

(** The second loop rewrites every entry, in place, against the keys of the
    whole mapping. *)
Lemma crawl_restrict_from (all : list string) : ∀ (post pre : corpus_t),
  NoDup (keys (pre ++ post)) → keys (pre ++ post) = all →
  for_in (keys post) crawl_restrict (pre ++ post)
  = Ok (pre ++ map (λ entry, (entry.1, filter (λ link, link ∈ all) entry.2)) post).
Proof.
  induction post as [|[k links] post IH]; intros pre Hnd Hall; [done|].
  change (keys ((k, links) :: post)) with (k :: keys post). cbn [for_in].
  assert (k ∉ keys pre) as Hfresh.
  { rewrite keys_app in Hnd. apply NoDup_app in Hnd as (_ & Hdisj & _).
    intros Hin. apply (Hdisj _ Hin), list_elem_of_here. }
  rewrite (crawl_restrict_Ok _ k links); last first.
  { apply dict_get_of_elem; [done|]. apply elem_of_app. right. apply list_elem_of_here. }
  cbn [mbind result_bind]. rewrite dict_set_middle by done. rewrite Hall.
  rewrite (cons_middle _ pre post), app_assoc, IH.
  - by rewrite <- app_assoc.
  - by rewrite <- app_assoc, !keys_app in *.
  - by rewrite <- app_assoc, !keys_app in *.
Qed.

Lemma crawl_Ok (directory : directory_t) :
  crawl directory
  = Ok (map (λ entry, (entry.1, filter (λ link, link ∈ keys (crawl_extract directory))
                                        entry.2))
            (crawl_extract directory)).
Proof.
  unfold crawl. destruct (crawl_extract_ok directory) as (Hnd & _ & _).
  by apply (crawl_restrict_from (keys (crawl_extract directory))
              (crawl_extract directory) []).
Qed.

Lemma keys_map_values {V W : Type} (f : string * V → W) (d : dict V) :
  keys (map (λ entry, (entry.1, f entry)) d) = keys d.
Proof. unfold keys. induction d as [|e d IH]; simpl; [done | by f_equal]. Qed.

(** X1: [crawl] never raises, and what it returns is a well-formed corpus:
    no page occurs twice, every link of a page is a page of the corpus, and
    no page links to itself. *)
Theorem crawl_corpus_ok (directory : directory_t) :
  ∃ corpus, crawl directory = Ok corpus ∧ corpus_ok corpus.
Proof.
  eexists. split; [apply crawl_Ok|].
  destruct (crawl_extract_ok directory) as (Hnd & Hirr & _).
  set (pages := crawl_extract directory) in *.
  split.
  - by rewrite keys_map_values.
  - intros page links [[k l] [[= -> ->] Hin]]%list_elem_of_fmap link.
    rewrite keys_map_values. simpl. by intros [? _]%elem_of_filter.
  - intros page links [[k l] [[= -> ->] Hin]]%list_elem_of_fmap.
    simpl. intros [_ Hself]%elem_of_filter. by apply (Hirr _ _ Hin).
Qed.


Lemma crawl_extract_fresh (directory : directory_t) : ∀ (pages : corpus_t),
  NoDup (keys pages ++ directory.*1) →
  foldl (λ pages entry,
           if endswith entry.1 ".html"
           then dict_set pages entry.1 (list_to_set entry.2 ∖ {[entry.1]})
           else pages) pages directory
  = pages ++ map (λ entry, (entry.1, list_to_set entry.2 ∖ {[entry.1]}))
                 (filter (λ entry, endswith entry.1 ".html" = true) directory).
Proof.
  induction directory as [|[name hrefs] directory IH]; intros pages Hnd.
  - by rewrite app_nil_r.
  - cbn [foldl fst snd]. simpl in Hnd.
    assert (name ∉ keys pages) as Hfresh.
    { apply NoDup_app in Hnd as (_ & Hdisj & _). intros Hin.
      apply (Hdisj _ Hin), list_elem_of_here. }
    assert (NoDup (keys pages ++ directory.*1)) as Hnd'.
    { apply NoDup_app in Hnd as (Hp & Hdisj & [_ Hd]%NoDup_cons).
      apply NoDup_app. split; [done|]. split; [|done].
      intros x Hx Hx'. apply (Hdisj _ Hx). by apply list_elem_of_further. }
    destruct (endswith name ".html") eqn:Hhtml.
    + rewrite filter_cons_True by done. rewrite IH.
      * rewrite dict_set_fresh by done. by rewrite <- app_assoc.
      * rewrite dict_set_fresh, keys_app by done. simpl.
        rewrite <- app_assoc. simpl. done.
    + rewrite filter_cons_False by (simpl; congruence). by apply IH.
Qed.

Lemma crawl_extract_nodup (directory : directory_t) :
  NoDup directory.*1 →
  crawl_extract directory
  = map (λ entry, (entry.1, list_to_set entry.2 ∖ {[entry.1]}))
        (filter (λ entry, endswith entry.1 ".html" = true) directory).
Proof. intros Hnd. unfold crawl_extract. by rewrite crawl_extract_fresh. Qed.

(** X2: when the names of the directory are distinct, the pages of the
    corpus are the names that end in ".html", in the order of the listing;
    the other files are left out. *)
Theorem crawl_pages (directory : directory_t) :
  NoDup directory.*1 →
  ∃ corpus,
    crawl directory = Ok corpus ∧
    keys corpus = filter (λ name, endswith name ".html" = true) directory.*1.
Proof.
  intros Hnd. eexists. split; [apply crawl_Ok|].
  rewrite keys_map_values, crawl_extract_nodup by done.
  unfold keys. clear Hnd.
  induction directory as [|[name hrefs] directory IH]; [done|]. simpl.
  destruct (decide (endswith name ".html" = true)) as [Hhtml|Hhtml].
  - rewrite !filter_cons_True by done. simpl. by f_equal.
  - by rewrite !filter_cons_False by done.
Qed.

(** X3: when the names of the directory are distinct, the links that
    [crawl] keeps for a page are exactly the references found in it that
    name another file of the directory ending in ".html". *)
Theorem crawl_links (directory : directory_t) (page : string) (hrefs : list string) :
  NoDup directory.*1 → (page, hrefs) ∈ directory → endswith page ".html" = true →
  ∃ corpus links,
    crawl directory = Ok corpus ∧
    dict_get corpus page = Some links ∧
    ∀ link, link ∈ links ↔
      link ∈ hrefs ∧ link ≠ page ∧ link ∈ directory.*1 ∧ endswith link ".html" = true.
Proof.
  intros Hnd Hin Hhtml.
  destruct (crawl_extract_ok directory) as (Hnd' & _ & Hkeys).
  eexists. eexists. split; [apply crawl_Ok|]. split.
  - apply dict_get_of_elem; [by rewrite keys_map_values|].
    apply list_elem_of_fmap.
    exists (page, list_to_set hrefs ∖ {[page]}). split; [done|].
    rewrite crawl_extract_nodup by done. apply list_elem_of_fmap.
    exists (page, hrefs). split; [done|]. by apply list_elem_of_filter.
  - intros link. simpl.
    rewrite elem_of_filter, Hkeys, elem_of_difference, elem_of_list_to_set,
      elem_of_singleton.
    tauto.
Qed.


Lemma crawl_pages_witness :
  ∃ corpus,
    crawl directory_example = Ok corpus ∧
    keys corpus = filter (λ name, endswith name ".html" = true) directory_example.*1.
Proof.
  apply (crawl_pages directory_example). by_compute.
Defined.

Lemma crawl_links_witness :
  ∃ corpus links,
    crawl directory_example = Ok corpus ∧
    dict_get corpus "2.html" = Some links ∧
    ∀ link, link ∈ links ↔
      link ∈ ["1.html"; "3.html"; "notes.txt"] ∧ link ≠ "2.html" ∧
      link ∈ directory_example.*1 ∧ endswith link ".html" = true.
Proof.
  apply (crawl_links directory_example "2.html" ["1.html"; "3.html"; "notes.txt"]).
  - by_compute.
  - by_compute.
  - reflexivity.
Defined.

(** ** Edge cases of the estimators *)

(** X4: [transition_model] raises KeyError for a page that is no key of the
    corpus, whatever the corpus and the damping factor. *)
Theorem transition_model_missing_page (corpus : corpus_t) (page : string) (d : Q) :
  page ∉ keys corpus → transition_model corpus page d = Raise KeyError.
Proof.
  intros Hpage. apply dict_get_None in Hpage.
  unfold transition_model, getitem. by rewrite Hpage.
Qed.

Lemma transition_model_missing_page_witness :
  transition_model corpus_html "4.html" (85 # 100) = Raise KeyError.
Proof.
  apply (transition_model_missing_page corpus_html "4.html" (85 # 100)).
  by_compute.
Defined.

Lemma randrange_seed {V : Type} (rnd : random_source) (corpus : dict V) :
  corpus ≠ [] →
  ∃ i seed,
    randrange (rnd 0%nat) (len corpus) = Ok i ∧
    list_index (keys corpus) i = Ok seed ∧ seed ∈ keys corpus.
Proof.
  intros Hne.
  assert (0 < len corpus)%nat as HN by (destruct corpus; [done | simpl; lia]).
  exists (N.to_nat (rnd 0%nat `mod` N.of_nat (len corpus))).
  destruct (list_index_Ok (keys corpus)
              (N.to_nat (rnd 0%nat `mod` N.of_nat (len corpus)))) as (seed & Hseed & Hin).
  { unfold keys, len. rewrite length_fmap.
    pose proof (N.mod_upper_bound (rnd 0%nat) (N.of_nat (length corpus))).
    unfold len in HN. lia. }
  exists seed. split; [|done]. unfold randrange. by rewrite decide_False by lia.
Qed.

(** X5: a negative sample count is not rejected: the sampling loop does not
    run, nothing is raised, and every page of the corpus gets the rank 0. *)
Theorem sample_pagerank_negative (rnd : random_source) (corpus : corpus_t)
    (d : Q) (n : Z) :
  corpus ≠ [] → NoDup (keys corpus) → (n < 0)%Z →
  ∃ data,
    sample_pagerank rnd corpus d n = Ok data ∧
    keys data = keys corpus ∧
    ∀ v, v ∈ values data → (v == 0)%Q.
Proof.
  intros Hne Hnd Hn.
  destruct (randrange_seed rnd corpus Hne) as (i & seed & Hdraw & Hseed & _).
  exists (map (λ k, (k, (inject_Z 0 / inject_Z n)%Q)) (keys corpus)).
  split; [|split].
  - unfold sample_pagerank, sample_walk. rewrite Hdraw. cbn [mbind result_bind].
    rewrite Hseed. cbn [mbind result_bind].
    replace (Z.to_nat n) with 0%nat by lia. cbn [seq for_in mbind result_bind snd].
    rewrite divide_all_Ok by lia.
    rewrite (dict_fill_nil (λ _, 0%Z)) by done. by rewrite map_map.
  - apply keys_fill.
  - rewrite values_fill. intros v [k [-> _]]%list_elem_of_fmap.
    unfold Qdiv. apply Qmult_0_l.
Qed.

Lemma sample_pagerank_negative_witness :
  ∃ data,
    sample_pagerank (λ _, 7%N) corpus_html (85 # 100) (-3) = Ok data ∧
    keys data = keys corpus_html ∧
    ∀ v, v ∈ values data → (v == 0)%Q.
Proof.
  apply (sample_pagerank_negative (λ _, 7%N) corpus_html (85 # 100) (-3)).
  - discriminate.
  - by_compute.
  - lia.
Defined.


Lemma visit_count_range p visits :
  (0 ≤ visit_count p visits ≤ Z.of_nat (length visits))%Z.
Proof.
  unfold visit_count. pose proof (length_filter (λ q, q = p) visits). lia.
Qed.

(** What [sample_pagerank] returns on valid input, in closed form. *)
Lemma sample_pagerank_Ok (rnd : random_source) (corpus : corpus_t) (d : Q) (n : Z) :
  corpus ≠ [] → NoDup (keys corpus) → (0 < d)%Q → (d < 1)%Q → (1 ≤ n)%Z →
  ∃ visits,
    length visits = Z.to_nat n ∧
    (∀ q, q ∈ visits → q ∈ keys corpus) ∧
    sample_pagerank rnd corpus d n
    = Ok (map (λ k, (k, (inject_Z (visit_count k visits) / inject_Z n)%Q))
              (keys corpus)).
Proof.
  intros Hne Hnd Hd0 Hd1 Hn.
  destruct (randrange_seed rnd corpus Hne) as (i & seed & Hdraw & Hseed & Hin).
  set (data0 := foldl (λ data filename, dict_set data filename 0%Z) []
                      (keys corpus)).
  assert (data0 = map (λ k, (k, 0%Z)) (keys corpus)) as Hdata0
    by (by apply (dict_fill_nil (λ _, 0%Z))).
  destruct (sample_loop_Ok corpus d rnd Hnd Hd0 Hd1 (Z.to_nat n) 0%nat seed data0)
    as (visits & final & data' & Hrun & Hvlen & Hvis & _ & Hkeys & Hcnt).
  { done. }
  { rewrite Hdata0. apply keys_fill. }
  exists visits. split; [done|]. split; [done|].
  assert (data' = map (λ k, (k, visit_count k visits)) (keys corpus)) as ->.
  { rewrite <- Hkeys. apply dict_ext; rewrite Hkeys; [done|].
    intros k Hk. rewrite (Hcnt k 0%Z); [done|].
    rewrite Hdata0. apply dict_get_of_elem; [by rewrite keys_fill|].
    apply list_elem_of_fmap. by exists k. }
  unfold sample_pagerank, sample_walk. fold data0.
  rewrite Hdraw. cbn [mbind result_bind]. rewrite Hseed.
  cbn [mbind result_bind]. rewrite Hrun. cbn [mbind result_bind snd].
  rewrite divide_all_Ok by lia. by rewrite map_map.
Qed.

Lemma count_ratio_range (c n : Z) :
  (0 ≤ c ≤ n)%Z → (0 < n)%Z → (0 <= inject_Z c / inject_Z n <= 1)%Q.
Proof.
  intros Hc Hn.
  assert (0 < inject_Z n)%Q as Hn' by (change 0%Q with (inject_Z 0); rewrite <- Zlt_Qlt; lia).
  split.
  - apply Qle_shift_div_l; [done|]. rewrite Qmult_0_l.
    change 0%Q with (inject_Z 0). rewrite <- Zle_Qle. lia.
  - apply Qle_shift_div_r; [done|]. rewrite Qmult_1_l. rewrite <- Zle_Qle. lia.
Qed.

(** X6: on valid input every rank that [sample_pagerank] returns lies
    between 0 and 1, as its docstring says. *)
Theorem sample_pagerank_bounds (rnd : random_source) (corpus : corpus_t)
    (d : Q) (n : Z) :
  corpus ≠ [] → NoDup (keys corpus) → (0 < d)%Q → (d < 1)%Q → (1 ≤ n)%Z →
  ∃ data,
    sample_pagerank rnd corpus d n = Ok data ∧
    ∀ v, v ∈ values data → (0 <= v <= 1)%Q.
Proof.
  intros Hne Hnd Hd0 Hd1 Hn.
  destruct (sample_pagerank_Ok rnd corpus d n) as (visits & Hlen & _ & Hrun);
    [done..|].
  eexists. split; [exact Hrun|]. rewrite values_fill.
  intros v [k [-> _]]%list_elem_of_fmap. apply count_ratio_range; [|lia].
  pose proof (visit_count_range k visits). lia.
Qed.

Lemma sample_pagerank_bounds_witness :
  ∃ data,
    sample_pagerank (λ k, 5 + 1000003 * N.of_nat k)%N corpus_html (85 # 100) 4
    = Ok data ∧
    ∀ v, v ∈ values data → (0 <= v <= 1)%Q.
Proof.
  apply (sample_pagerank_bounds (λ k, 5 + 1000003 * N.of_nat k)%N
           corpus_html (85 # 100) 4).
  - discriminate.
  - by_compute.
  - reflexivity.
  - reflexivity.
  - lia.
Defined.


(** ** Passes contract *)

Lemma Qsum_nonneg {X : Type} (f : X → Q) xs :
  (∀ x, x ∈ xs → (0 <= f x)%Q) → (0 <= Qsum (map f xs))%Q.
Proof.
  induction xs as [|x xs IH]; intros Hf; cbn [map Qsum]; [apply Qle_refl|].
  pose proof (Hf x (list_elem_of_here _ _)).
  assert (0 <= Qsum (map f xs))%Q by (apply IH; intros; by apply Hf, list_elem_of_further).
  lra.
Qed.

Lemma Qsum_le {X : Type} (f g : X → Q) xs :
  (∀ x, x ∈ xs → (f x <= g x)%Q) → (Qsum (map f xs) <= Qsum (map g xs))%Q.
Proof.
  induction xs as [|x xs IH]; intros Hf; cbn [map Qsum]; [apply Qle_refl|].
  pose proof (Hf x (list_elem_of_here _ _)).
  assert (Qsum (map f xs) <= Qsum (map g xs))%Q
    by (apply IH; intros; by apply Hf, list_elem_of_further).
  lra.
Qed.

Lemma Qsum_scale {X : Type} (f : X → Q) (c : Q) xs :
  (Qsum (map (λ x, f x * c) xs) == Qsum (map f xs) * c)%Q.
Proof. induction xs as [|x xs IH]; cbn [map Qsum]; [ring | rewrite IH; ring]. Qed.

Lemma Qabs_Qsum {X : Type} (m u : X → Q) xs :
  (∀ x, (0 <= m x)%Q) →
  (Qabs (Qsum (map (λ x, m x * u x) xs)) <= Qsum (map (λ x, m x * Qabs (u x)) xs))%Q.
Proof.
  intros Hm. induction xs as [|x xs IH]; cbn [map Qsum]; [by vm_compute|].
  eapply Qle_trans; [apply Qabs_triangle|].
  rewrite Qabs_Qmult, (Qabs_pos (m x)) by done. lra.
Qed.

Section sweep.
Variables (m : string → string → Q) (d : Q).
Hypothesis m_nonneg : ∀ f q, (0 <= m f q)%Q.
Hypotheses (d_nonneg : (0 <= d)%Q) (d_lt_1 : (d < 1)%Q).
Hypothesis colsum_le_1 : ∀ fs q, NoDup fs → (colsum m fs q <= 1)%Q.

Lemma rowsum_app f js1 js2 v :
  (rowsum m f (js1 ++ js2) v == rowsum m f js1 v + rowsum m f js2 v)%Q.
Proof. unfold rowsum. by rewrite map_app, Qsum_app. Qed.

Lemma colsum_nonneg fs q : (0 <= colsum m fs q)%Q.
Proof. unfold colsum. apply Qsum_nonneg. auto. Qed.

(** Summing, over the rows [post], what each takes from the single page
    [f] with value [c]. *)
Lemma rowsum_snoc_sum post pre f (b : string → Q) :
  (Qsum (map (λ i, rowsum m i (pre ++ [f]) b) post)
   == Qsum (map (λ i, rowsum m i pre b) post) + b f * colsum m post f)%Q.
Proof.
  unfold colsum. induction post as [|i post IH]; cbn [map Qsum]; [ring|].
  rewrite IH, rowsum_app. unfold rowsum at 2. cbn [map Qsum]. ring.
Qed.

(** In a pass in place, the new changes [b] are bounded through the rows by
    the new changes of the pages before and the old changes [a] of the
    pages from there on. *)
Lemma sweep_bound (a b : string → Q) : ∀ post pre,
  (∀ before f after, post = before ++ f :: after →
     (b f <= d * (rowsum m f (pre ++ before) b + rowsum m f (f :: after) a))%Q) →
  (wnorm m d post b
   <= d * (Qsum (map (λ i, rowsum m i pre b) post) + upper m post a))%Q.
Proof.
  induction post as [|f post IH]; intros pre Hrow.
  - cbn [wnorm map Qsum upper]. lra.
  - pose proof (Hrow [] f post eq_refl) as Hf. rewrite app_nil_r in Hf.
    assert (wnorm m d post b
            <= d * (Qsum (map (λ i, rowsum m i (pre ++ [f]) b) post)
                    + upper m post a))%Q as Hrest.
    { apply IH. intros before g after ->.
      rewrite <- app_assoc. by apply (Hrow (f :: before) g after). }
    rewrite rowsum_snoc_sum in Hrest.
    cbn [wnorm map Qsum upper]. lra.
Qed.

(** What the rows take in all is bounded by the weighted sum, the shares
    taken from a page adding up to 1 at most. *)
Lemma upper_bound (a : string → Q) :
  (∀ q, (0 <= a q)%Q) →
  ∀ fs (extra : string → Q),
    (∀ j, j ∈ fs → (0 <= extra j)%Q ∧ (extra j + colsum m fs j <= 1)%Q) →
    (Qsum (map (λ j, extra j * a j) fs) + upper m fs a <= wnorm m d fs a)%Q.
Proof.
  intros Ha. induction fs as [|f fs IH]; intros extra Hextra.
  - cbn [map Qsum upper wnorm]. lra.
  - destruct (Hextra f (list_elem_of_here _ _)) as [Hf0 Hf1].
    assert (Qsum (map (λ j, (extra j + m f j) * a j) fs) + upper m fs a
            <= wnorm m d fs a)%Q as Hrest.
    { apply IH. intros j Hj.
      destruct (Hextra j (list_elem_of_further _ _ _ Hj)) as [Hj0 Hj1].
      pose proof (m_nonneg f j). unfold colsum in *. cbn [map Qsum] in Hj1.
      split; lra. }
    rewrite (Qsum_ext _ (λ j, extra j * a j + m f j * a j)%Q) in Hrest
      by (intros; ring).
    rewrite Qsum_plus in Hrest. fold (rowsum m f fs a) in Hrest.
    cbn [map Qsum upper wnorm]. unfold rowsum at 1. cbn [map Qsum].
    fold (rowsum m f fs a).
    pose proof (colsum_nonneg fs f) as Hc0. pose proof (Ha f) as Haf.
    pose proof (m_nonneg f f) as Hmff.
    unfold colsum in Hf1. cbn [map Qsum] in Hf1. fold (colsum m fs f) in Hf1.
    assert ((extra f + m f f) * a f <= a f * (1 - d * colsum m fs f))%Q; [|lra].
    rewrite (Qmult_comm (a f)). apply Qmult_le_compat_r; [|done].
    assert (d * colsum m fs f <= colsum m fs f)%Q; [|lra].
    rewrite <- (Qmult_1_l (colsum m fs f)) at 2.
    apply Qmult_le_compat_r; [lra | done].
Qed.

(** A pass in place brings the weighted sum of the changes down by the
    factor [d]. *)
Lemma sweep_contracts (a b : string → Q) ks :
  NoDup ks → (∀ q, (0 <= a q)%Q) →
  (∀ before f after, ks = before ++ f :: after →
     (b f <= d * (rowsum m f before b + rowsum m f (f :: after) a))%Q) →
  (wnorm m d ks b <= d * wnorm m d ks a)%Q.
Proof.
  intros Hnd Ha Hrow.
  pose proof (sweep_bound a b ks [] Hrow) as Hb.
  rewrite (Qsum_const 0%Q) in Hb.
  pose proof (upper_bound a Ha ks (λ _, 0%Q)) as Hu.
  rewrite (Qsum_ext _ (λ _, 0%Q)), (Qsum_const 0%Q) in Hu by (intros; ring).
  assert (upper m ks a <= wnorm m d ks a)%Q as Hu'.
  { assert (0 + upper m ks a <= wnorm m d ks a)%Q; [|lra].
    rewrite <- (Qmult_0_r (Qnat (length ks))). apply Hu.
    intros j _. split; [lra|]. pose proof (colsum_le_1 ks j Hnd). lra. }
  assert (d * upper m ks a <= d * wnorm m d ks a)%Q; [|lra].
  rewrite !(Qmult_comm d). by apply Qmult_le_compat_r.
Qed.

(** Every weight is at least [1 - d]. *)
Lemma wnorm_lower (v : string → Q) ks k :
  NoDup ks → (∀ q, (0 <= v q)%Q) → k ∈ ks →
  ((1 - d) * v k <= wnorm m d ks v)%Q.
Proof.
  intros Hnd Hv. induction ks as [|f ks IH]; intros Hk.
  - by apply elem_of_nil in Hk.
  - apply NoDup_cons in Hnd as [_ Hnd]. cbn [wnorm].
    assert (0 <= wnorm m d ks v)%Q as Hrest.
    { clear IH Hk. induction ks as [|g ks IH']; cbn [wnorm]; [lra|].
      apply NoDup_cons in Hnd as [_ Hnd].
      pose proof (IH' Hnd). pose proof (Hv g).
      pose proof (colsum_le_1 ks g Hnd). pose proof (colsum_nonneg ks g).
      assert (0 <= v g * (1 - d * colsum m ks g))%Q; [|lra].
      apply Qmult_le_0_compat; [done|].
      assert (d * colsum m ks g <= 1 * 1)%Q; [|lra].
      apply Qmult_le_compat_nonneg; split; lra. }
    pose proof (Hv f) as Hvf.
    pose proof (colsum_le_1 ks f Hnd). pose proof (colsum_nonneg ks f).
    assert (v f * (1 - d) <= v f * (1 - d * colsum m ks f))%Q as Hw.
    { rewrite !(Qmult_comm (v f)). apply Qmult_le_compat_r; [|done].
      assert (d * colsum m ks f <= d * 1)%Q; [|lra].
      rewrite !(Qmult_comm d). apply Qmult_le_compat_r; [done | lra]. }
    apply elem_of_cons in Hk as [->|Hk].
    + lra.
    + pose proof (IH Hnd Hk).
      assert (0 <= v f * (1 - d))%Q; [|lra].
      apply Qmult_le_0_compat; lra.
Qed.
End sweep.


Lemma wnorm_nonneg (m : string → string → Q) (d : Q) (v : string → Q) ks :
  (∀ f q, (0 <= m f q)%Q) → (0 <= d)%Q → (d < 1)%Q →
  (∀ fs q, NoDup fs → (colsum m fs q <= 1)%Q) →
  NoDup ks → (∀ q, (0 <= v q)%Q) → (0 <= wnorm m d ks v)%Q.
Proof.
  intros Hm Hd0 Hd1 Hcol Hnd Hv. destruct ks as [|k ks].
  - cbn [wnorm]. lra.
  - assert (0 <= (1 - d) * v k)%Q as H0
      by (apply Qmult_le_0_compat; [lra | apply Hv]).
    eapply Qle_trans; [exact H0|].
    apply wnorm_lower; try done. apply list_elem_of_here.
Qed.

(** *** The shares of the links *)

Lemma link_share_nonneg (corpus : corpus_t) f q : (0 <= link_share corpus f q)%Q.
Proof.
  unfold link_share. destruct (dict_get corpus q) as [links|]; [|lra].
  destruct (decide (f ∈ links)); [|lra].
  unfold Qdiv. rewrite Qmult_1_l. apply Qinv_le_0_compat, Qnat_nonneg.
Qed.

Lemma Qnat_le a b : (a ≤ b)%nat → (Qnat a <= Qnat b)%Q.
Proof. intros Hab. unfold Qnat. rewrite <- Zle_Qle. lia. Qed.

Lemma link_share_colsum (corpus : corpus_t) fs q :
  NoDup fs → (colsum (link_share corpus) fs q <= 1)%Q.
Proof.
  intros Hnd. unfold colsum, link_share.
  destruct (dict_get corpus q) as [links|]; last first.
  { rewrite (Qsum_const 0%Q). rewrite Qmult_0_r. lra. }
  rewrite (Qsum_ext _ (λ f, if decide (f ∈ links)
                            then 1 / Qnat (size links) + 0 else 0)%Q)
    by (intros f _; destruct (decide (f ∈ links)); ring).
  rewrite Qsum_two_valued.
  assert (length (filter (.∈ links) fs) ≤ size links)%nat as Hlen.
  { apply submseteq_length, NoDup_submseteq; [by apply NoDup_filter|].
    intros x [Hx _]%list_elem_of_filter. by apply elem_of_elements. }
  destruct (decide (size links = 0%nat)) as [H0|Hpos].
  - rewrite H0 in *. replace (length (filter (.∈ links) fs)) with 0%nat by lia.
    change (Qnat 0) with 0%Q. rewrite Qmult_0_l, Qmult_0_r. lra.
  - assert (0 < Qnat (size links))%Q as Hs by (apply Qnat_pos; lia).
    pose proof (Qnat_le _ _ Hlen) as Hle.
    rewrite Qmult_0_r, Qplus_0_r. unfold Qdiv. rewrite Qmult_1_l.
    apply Qle_shift_div_r; [done|]. lra.
Qed.

Lemma inbound_term_share (corpus : corpus_t) (data : dict Q) f q :
  (inbound_term corpus data f q == link_share corpus f q * rank_of data q)%Q.
Proof.
  unfold inbound_term, link_share. destruct (dict_get corpus q) as [links|]; [|ring].
  destruct (decide (f ∈ links)); [|ring]. unfold Qdiv. ring.
Qed.

(** *** Reading a mapping that is half rewritten *)

Lemma dict_get_app {V : Type} (d1 d2 : dict V) k :
  dict_get (d1 ++ d2) k
  = match dict_get d1 k with Some v => Some v | None => dict_get d2 k end.
Proof.
  induction d1 as [|[k' v'] d1 IH]; simpl; [done|].
  by destruct (decide (k = k')).
Qed.

Lemma rank_of_mix (x' x : dict Q) (before after : list string) f q :
  NoDup (keys x) → keys x' = keys x → keys x = before ++ f :: after →
  rank_of (take (length before) x' ++ drop (length before) x) q
  = if decide (q ∈ before) then rank_of x' q else rank_of x q.
Proof.
  intros Hnd Hkeys' Hkeys. unfold rank_of. rewrite dict_get_app.
  assert (keys (take (length before) x') = before) as Htake.
  { unfold keys in *. rewrite fmap_take, Hkeys', Hkeys. by rewrite take_app_length. }
  assert (keys (drop (length before) x) = f :: after) as Hdrop.
  { unfold keys in *. rewrite fmap_drop, Hkeys. by rewrite drop_app_length. }
  pose proof (dict_get_app (take (length before) x') (drop (length before) x') q)
    as Hx'.
  pose proof (dict_get_app (take (length before) x) (drop (length before) x) q)
    as Hx.
  rewrite take_drop in Hx', Hx.
  destruct (decide (q ∈ before)) as [Hin|Hnin].
  - destruct (dict_get_is_Some (take (length before) x') q) as [v Hv];
      [by rewrite Htake|].
    rewrite Hv in Hx' |- *. by rewrite Hx'.
  - assert (dict_get (take (length before) x') q = None) as ->
      by (apply dict_get_None; by rewrite Htake).
    assert (dict_get (take (length before) x) q = None) as Hnone.
    { apply dict_get_None. unfold keys in *. rewrite fmap_take, Hkeys.
      by rewrite take_app_length. }
    rewrite Hnone in Hx. by rewrite Hx.
Qed.

(** The equations of a pass: every new rank from the new ranks of the pages
    before it and the old ranks from there on. *)
Lemma relax_rows (corpus : corpus_t) (d : Q) (N : nat) (x : dict Q) :
  NoDup (keys x) → keys x = keys corpus →
  ∃ x',
    relax corpus d N x = Ok x' ∧
    keys x' = keys x ∧
    ∀ before f after, keys x = before ++ f :: after →
      (rank_of x' f
       == (1 - d) / Qnat N
          + d * (rowsum (link_share corpus) f before (rank_of x')
                 + rowsum (link_share corpus) f (f :: after) (rank_of x)))%Q.
Proof.
  intros Hnd Hkeys.
  destruct (relax_from corpus d N x []) as (x' & Hrun & Hkeys' & Hpass).
  { done. }
  { intros k Hk. by rewrite <- Hkeys. }
  exists x'. split; [done|]. split; [done|]. intros before f after Hsplit.
  destruct (Hpass (length before) f) as (s & Hs & Hget).
  { rewrite Hsplit. by rewrite list_lookup_middle. }
  cbn [app] in Hs.
  set (mix := take (length before) x' ++ drop (length before) x) in *.
  assert (keys mix = keys x) as Hmix.
  { unfold mix. rewrite keys_app. unfold keys in *.
    by rewrite fmap_take, fmap_drop, Hkeys', take_drop. }
  destruct (inbound_sum_Ok corpus mix f) as (s' & Hs' & Heq).
  { intros k. by rewrite Hmix, Hkeys. }
  rewrite Hs in Hs'. injection Hs' as <-.
  assert (rank_of x' f = (1 - d) / Qnat N + d * s)%Q as ->.
  { unfold rank_of. erewrite dict_get_of_elem; [done | by rewrite Hkeys' |].
    by eapply list_elem_of_lookup_2. }
  rewrite Heq, Hmix, Hsplit. rewrite map_app, Qsum_app.
  assert (NoDup (before ++ f :: after)) as Hnd' by (by rewrite <- Hsplit).
  apply NoDup_app in Hnd' as (_ & Hdisj & _).
  unfold rowsum.
  rewrite (Qsum_ext (inbound_term corpus mix f)
             (λ q, link_share corpus f q * rank_of x' q)%Q before).
  - rewrite (Qsum_ext (inbound_term corpus mix f)
               (λ q, link_share corpus f q * rank_of x q)%Q (f :: after)).
    + reflexivity.
    + intros q Hq. rewrite inbound_term_share. unfold mix.
      rewrite (rank_of_mix x' x before after f q) by done.
      rewrite decide_False; [reflexivity|]. intros Hb. by apply (Hdisj q).
  - intros q Hq. rewrite inbound_term_share. unfold mix.
    rewrite (rank_of_mix x' x before after f q) by done.
    by rewrite decide_True.
Qed.


Lemma rowsum_minus (m : string → string → Q) f js (u v : string → Q) :
  (rowsum m f js u - rowsum m f js v
   == Qsum (map (λ j, m f j * (u j - v j)) js))%Q.
Proof.
  unfold rowsum. induction js as [|j js IH]; cbn [map Qsum]; [ring|].
  rewrite <- IH. ring.
Qed.

Lemma rowsum_change (corpus : corpus_t) f js (x y : dict Q) :
  (Qabs (rowsum (link_share corpus) f js (rank_of x)
         - rowsum (link_share corpus) f js (rank_of y))
   <= rowsum (link_share corpus) f js (rank_change x y))%Q.
Proof.
  rewrite rowsum_minus. unfold rowsum, rank_change.
  apply (Qabs_Qsum (λ j, link_share corpus f j) (λ j, rank_of x j - rank_of y j)%Q).
  intros j. apply link_share_nonneg.
Qed.

(** Two passes from two mappings: the weighted change between the results
    is at most [d] times the weighted change between the mappings. *)
Lemma relax_contracts (corpus : corpus_t) (d : Q) (N : nat) (x y x' y' : dict Q) :
  (0 < d)%Q → (d < 1)%Q → NoDup (keys corpus) →
  keys x = keys corpus → keys y = keys corpus →
  relax corpus d N x = Ok x' → relax corpus d N y = Ok y' →
  (wnorm (link_share corpus) d (keys corpus) (rank_change x' y')
   <= d * wnorm (link_share corpus) d (keys corpus) (rank_change x y))%Q.
Proof.
  intros Hd0 Hd1 Hnd Hx Hy Hrx Hry.
  destruct (relax_rows corpus d N x) as (x1 & Hrx1 & _ & Hrowx);
    [by rewrite Hx | done |].
  destruct (relax_rows corpus d N y) as (y1 & Hry1 & _ & Hrowy);
    [by rewrite Hy | done |].
  rewrite Hrx in Hrx1. injection Hrx1 as <-.
  rewrite Hry in Hry1. injection Hry1 as <-.
  apply sweep_contracts; try done.
  - apply link_share_nonneg.
  - lra.
  - intros fs q. apply link_share_colsum.
  - intros q. apply Qabs_nonneg.
  - intros before f after Hsplit.
    pose proof (Hrowx before f after) as Hfx. rewrite Hx in Hfx.
    pose proof (Hrowy before f after) as Hfy. rewrite Hy in Hfy.
    specialize (Hfx Hsplit). specialize (Hfy Hsplit).
    pose proof (rowsum_change corpus f before x' y') as H1.
    pose proof (rowsum_change corpus f (f :: after) x y) as H2.
    unfold rank_change at 1. rewrite Hfx, Hfy.
    set (R1x := rowsum _ f before (rank_of x')) in *.
    set (R1y := rowsum _ f before (rank_of y')) in *.
    set (R2x := rowsum _ f (f :: after) (rank_of x)) in *.
    set (R2y := rowsum _ f (f :: after) (rank_of y)) in *.
    set (B1 := rowsum _ f before (rank_change x' y')) in *.
    set (B2 := rowsum _ f (f :: after) (rank_change x y)) in *.
    assert ((1 - d) / Qnat N + d * (R1x + R2x) - ((1 - d) / Qnat N + d * (R1y + R2y))
            == d * ((R1x - R1y) + (R2x - R2y)))%Q as -> by ring.
    rewrite Qabs_Qmult, (Qabs_pos d) by lra.
    rewrite !(Qmult_comm d). apply Qmult_le_compat_r; [|lra].
    eapply Qle_trans; [apply Qabs_triangle|]. lra.
Qed.

(** *** Powers of the damping factor *)

Lemma Qpow_range d k : (0 <= d)%Q → (d <= 1)%Q → (0 <= Qpow d k <= 1)%Q.
Proof.
  intros Hd0 Hd1. induction k as [|k [IH0 IH1]]; cbn [Qpow]; [split; lra|].
  split; [by apply Qmult_le_0_compat|].
  assert (d * Qpow d k <= 1 * 1)%Q; [|lra].
  apply Qmult_le_compat_nonneg; split; lra.
Qed.

Lemma Qpow_bernoulli d k :
  (0 <= d)%Q → (d <= 1)%Q → ((1 + Qnat k * (1 - d)) * Qpow d k <= 1)%Q.
Proof.
  intros Hd0 Hd1. induction k as [|k IH]; cbn [Qpow].
  - change (Qnat 0) with 0%Q. lra.
  - rewrite Qnat_S. destruct (Qpow_range d k Hd0 Hd1) as [HP0 HP1].
    set (P := Qpow d k) in *. set (K := Qnat k) in *.
    assert (d * ((1 + K * (1 - d)) * P) <= d * 1)%Q as H1.
    { rewrite !(Qmult_comm d). by apply Qmult_le_compat_r. }
    assert ((1 - d) * (d * P) <= (1 - d) * 1)%Q as H2.
    { rewrite !(Qmult_comm (1 - d)). apply Qmult_le_compat_r; [|lra].
      assert (d * P <= 1 * 1)%Q; [|lra].
      apply Qmult_le_compat_nonneg; split; lra. }
    assert ((1 + (K + 1) * (1 - d)) * (d * P)
            == d * ((1 + K * (1 - d)) * P) + (1 - d) * (d * P))%Q as -> by ring.
    lra.
Qed.

Lemma Qnat_archimedean (r : Q) : ∃ k, (r <= Qnat k)%Q.
Proof.
  exists (Z.to_nat (Qnum r)). destruct r as [n p]. unfold Qle, Qnat. simpl. nia.
Qed.

(** The powers of a damping factor below 1 get as small as one likes. *)
Lemma Qpow_small d B e :
  (0 <= d)%Q → (d < 1)%Q → (0 <= B)%Q → (0 < e)%Q →
  ∃ k, (Qpow d k * B <= e)%Q.
Proof.
  intros Hd0 Hd1 HB He.
  destruct (Qnat_archimedean (B / ((1 - d) * e))) as [k Hk].
  exists k.
  assert (0 < (1 - d) * e)%Q as Hpos by (apply Qmult_lt_0_compat; lra).
  assert (B <= Qnat k * ((1 - d) * e))%Q as HBk.
  { assert (B == B / ((1 - d) * e) * ((1 - d) * e))%Q as -> by (field; lra).
    apply Qmult_le_compat_r; lra. }
  destruct (Qpow_range d k Hd0 (Qlt_le_weak _ _ Hd1)) as [HP0 HP1].
  pose proof (Qpow_bernoulli d k Hd0 (Qlt_le_weak _ _ Hd1)) as Hbern.
  set (P := Qpow d k) in *. set (K := Qnat k) in *.
  assert (P * B <= P * (K * ((1 - d) * e)))%Q as H1.
  { rewrite !(Qmult_comm P). by apply Qmult_le_compat_r. }
  assert (((1 + K * (1 - d)) * P) * e <= 1 * e)%Q as H2.
  { apply Qmult_le_compat_r; lra. }
  assert (0 <= P * e)%Q by (apply Qmult_le_0_compat; lra).
  lra.
Qed.


(** *** The loop stops *)

Lemma keep_going_false change :
  (Qabs change <= 1 # 10000)%Q → keep_going change = false.
Proof.
  intros [Hlo Hhi]%Qabs_Qle_condition. unfold keep_going, Qlt_bool.
  apply Qle_bool_iff in Hlo, Hhi. by rewrite Hlo, Hhi.
Qed.

Lemma initial_ranks_Ok (corpus : corpus_t) :
  NoDup (keys corpus) →
  initial_ranks corpus = map (λ k, (k, (1 / Qnat (len corpus))%Q)) (keys corpus).
Proof. intros Hnd. unfold initial_ranks. by rewrite dict_fill_nil. Qed.

Lemma rank_of_get (x : dict Q) f : f ∈ keys x → dict_get x f = Some (rank_of x f).
Proof.
  intros Hf. unfold rank_of. by destruct (dict_get_is_Some x f Hf) as [v ->].
Qed.

Lemma iterate_body_Ok raw (corpus : corpus_t) d N (x x' : dict Q) :
  x ≠ [] → keys x' = keys x → relax corpus d N x = Ok x' →
  ∃ f, f ∈ keys x ∧
       iterate_body raw corpus d N x = Ok (x', (rank_of x' f - rank_of x f)%Q).
Proof.
  intros Hne Hkeys Hrun.
  destruct (randrange_seed (λ _, raw) x Hne) as (i & f & Hdraw & Hf & Hin).
  exists f. split; [done|]. unfold iterate_body. cbn beta in Hdraw.
  rewrite Hdraw. cbn [mbind result_bind]. rewrite Hf. cbn [mbind result_bind].
  rewrite (getitem_Ok _ _ _ (rank_of_get x f Hin)). cbn [mbind result_bind].
  rewrite Hrun. cbn [mbind result_bind].
  rewrite (getitem_Ok x' f (rank_of x' f)); [done|].
  apply rank_of_get. by rewrite Hkeys.
Qed.

Section iterate_terminates.
Variables (corpus : corpus_t) (d : Q).
Hypothesis corpus_nonempty : corpus ≠ [].
Hypothesis keys_nodup : NoDup (keys corpus).
Hypotheses (d_pos : (0 < d)%Q) (d_lt_1 : (d < 1)%Q).

Lemma teleport_rank_pos : (0 < (1 - d) / Qnat (len corpus))%Q.
Proof.
  apply Qdiv_pos; [lra|]. apply Qnat_pos. destruct corpus; [done | simpl; lia].
Qed.

(** After a pass over non-negative ranks every rank is at least (1-d)/N. *)
Lemma relax_lower (x x' : dict Q) :
  keys x = keys corpus → relax corpus d (len corpus) x = Ok x' →
  (∀ q, q ∈ keys corpus → (0 <= rank_of x q)%Q) →
  ∀ q, q ∈ keys corpus → ((1 - d) / Qnat (len corpus) <= rank_of x' q)%Q.
Proof.
  intros Hx Hrun Hpos.
  destruct (relax_rows corpus d (len corpus) x) as (x1 & Hrun1 & _ & Hrow);
    [by rewrite Hx | done |].
  rewrite Hrun in Hrun1. injection Hrun1 as <-. rewrite Hx in Hrow.
  pose proof teleport_rank_pos as Hc.
  assert (∀ before f after, keys corpus = before ++ f :: after →
            (∀ q, q ∈ before → ((1 - d) / Qnat (len corpus) <= rank_of x' q)%Q) ∧
            ((1 - d) / Qnat (len corpus) <= rank_of x' f)%Q) as Hall.
  { induction before as [|g before IH] using rev_ind; intros f after Hsplit.
    - split; [intros q Hq; by apply elem_of_nil in Hq|].
      rewrite (Hrow [] f after Hsplit).
      assert (0 <= rowsum (link_share corpus) f [] (rank_of x'))%Q
        by (unfold rowsum; simpl; lra).
      assert (0 <= rowsum (link_share corpus) f (f :: after) (rank_of x))%Q.
      { unfold rowsum. apply Qsum_nonneg. intros q Hq.
        apply Qmult_le_0_compat; [apply link_share_nonneg|].
        apply Hpos. rewrite Hsplit. by apply elem_of_app; right. }
      assert (0 <= d * (rowsum (link_share corpus) f [] (rank_of x')
                        + rowsum (link_share corpus) f (f :: after) (rank_of x)))%Q
        by (apply Qmult_le_0_compat; lra).
      lra.
    - rewrite <- app_assoc in Hsplit. cbn [app] in Hsplit.
      destruct (IH g (f :: after) Hsplit) as [Hbefore Hg].
      assert (∀ q, q ∈ before ++ [g] →
                ((1 - d) / Qnat (len corpus) <= rank_of x' q)%Q) as Hbefore'.
      { intros q [Hq| ->%list_elem_of_singleton]%elem_of_app; auto. }
      split; [done|].
      assert (keys corpus = (before ++ [g]) ++ f :: after) as Hsplit'
        by (by rewrite <- app_assoc).
      rewrite (Hrow (before ++ [g]) f after Hsplit').
      assert (0 <= rowsum (link_share corpus) f (before ++ [g]) (rank_of x'))%Q.
      { unfold rowsum. apply Qsum_nonneg. intros q Hq.
        apply Qmult_le_0_compat; [apply link_share_nonneg|].
        pose proof (Hbefore' q Hq). lra. }
      assert (0 <= rowsum (link_share corpus) f (f :: after) (rank_of x))%Q.
      { unfold rowsum. apply Qsum_nonneg. intros q Hq.
        apply Qmult_le_0_compat; [apply link_share_nonneg|].
        apply Hpos. rewrite Hsplit'. by apply elem_of_app; right. }
      assert (0 <= d * (rowsum (link_share corpus) f (before ++ [g]) (rank_of x')
                        + rowsum (link_share corpus) f (f :: after) (rank_of x)))%Q
        by (apply Qmult_le_0_compat; lra).
      lra. }
  intros q [before [after Hsplit]]%list_elem_of_split.
  by destruct (Hall before q after Hsplit).
Qed.
End iterate_terminates.


Section iterate_run.
Variables (corpus : corpus_t) (d : Q).
Hypothesis corpus_nonempty : corpus ≠ [].
Hypothesis keys_nodup : NoDup (keys corpus).
Hypotheses (d_pos : (0 < d)%Q) (d_lt_1 : (d < 1)%Q).

Lemma relax_total (x : dict Q) :
  keys x = keys corpus →
  ∃ x', relax corpus d (len corpus) x = Ok x' ∧ keys x' = keys corpus.
Proof.
  intros Hx. destruct (relax_rows corpus d (len corpus) x) as (x' & Hrun & Hkeys & _);
    [by rewrite Hx | done |].
  exists x'. split; [done|]. by rewrite Hkeys.
Qed.

(** Once the weighted change of a pass is at most [B], and [B] times the
    m-th power of [d] is below the threshold, [m + 1] more turns of the loop
    are enough, whatever page the random source selects. *)
Lemma iterate_loop_stops (m : nat) : ∀ (rnd : random_source) (x x' : dict Q) change B lo,
  keys x = keys corpus →
  relax corpus d (len corpus) x = Ok x' →
  (wnorm (link_share corpus) d (keys corpus) (rank_change x' x) <= B)%Q →
  (Qpow d m * B <= (1 - d) * (1 # 10000))%Q →
  (0 <= lo)%Q → (lo <= (1 - d) / Qnat (len corpus))%Q →
  (∀ q, q ∈ keys corpus → (lo <= rank_of x q)%Q) →
  ∃ data,
    iterate_loop (S m) rnd corpus d (len corpus) x change = Some (Ok data) ∧
    keys data = keys corpus ∧
    ∀ q, q ∈ keys corpus → (lo <= rank_of data q)%Q.
Proof.
  induction m as [|m IH]; intros rnd x x' change B lo Hx Hrun HB Hsmall Hlo0 Hlo1 Hpos.
  all: assert (x ≠ []) as Hne
    by (intros ->; destruct corpus; [done | discriminate Hx]).
  all: destruct (relax_total x Hx) as (x1 & Hrun1 & Hx').
  all: rewrite Hrun in Hrun1; injection Hrun1 as <-.
  all: destruct (iterate_body_Ok (rnd 0%nat) corpus d (len corpus) x x' Hne)
    as (f & Hf & Hbody); [by rewrite Hx, Hx' | done |].
  all: assert (∀ q, q ∈ keys corpus → (lo <= rank_of x' q)%Q) as Hpos'
    by (intros q Hq; eapply Qle_trans; [exact Hlo1|];
        apply (relax_lower corpus d) with (x := x); try done;
        intros q' Hq'; eapply Qle_trans; [exact Hlo0 | by apply Hpos]).
  all: cbn [iterate_loop]; destruct (keep_going change);
    [|by exists x].
  all: rewrite Hbody.
  - exists x'. split; [|done]. cbn [iterate_loop].
    rewrite keep_going_false; [done|].
    fold (rank_change x' x f).
    assert ((1 - d) * rank_change x' x f
            <= wnorm (link_share corpus) d (keys corpus) (rank_change x' x))%Q as Hw'.
    { apply wnorm_lower;
        first [ apply link_share_nonneg | apply link_share_colsum | lra | done
              | by rewrite <- Hx | intros; apply Qabs_nonneg ]. }
    cbn [Qpow] in Hsmall.
    assert ((1 - d) * rank_change x' x f <= (1 - d) * (1 # 10000))%Q as Hle by lra.
    rewrite !(Qmult_comm (1 - d)) in Hle.
    apply Qmult_lt_0_le_reg_r in Hle; [done | lra].
  - destruct (relax_total x' Hx') as (x'' & Hrun' & Hx'').
    apply (IH (advance rnd) x' x'' _ (d * B)%Q lo); try done.
    + pose proof (relax_contracts corpus d (len corpus) x' x x'' x'
                    d_pos d_lt_1 keys_nodup Hx' Hx Hrun' Hrun) as Hc.
      assert (d * wnorm (link_share corpus) d (keys corpus) (rank_change x' x)
              <= d * B)%Q; [|lra].
      rewrite !(Qmult_comm d). apply Qmult_le_compat_r; [done | lra].
    + cbn [Qpow] in Hsmall. lra.
Qed.

(** With enough fuel [iterate_pagerank] returns, whatever the random source
    draws: ranks for the pages of the corpus, each at least (1-d)/N. *)
Lemma iterate_pagerank_run :
  ∃ fuel, ∀ rnd : random_source,
    ∃ data,
      iterate_pagerank fuel rnd corpus d = Some (Ok data) ∧
      keys data = keys corpus ∧
      ∀ q, q ∈ keys corpus → ((1 - d) / Qnat (len corpus) <= rank_of data q)%Q.
Proof.
  assert (0 < (1 - d) / Qnat (len corpus))%Q as Hc by (by apply teleport_rank_pos).
  assert (keys (initial_ranks corpus) = keys corpus) as Hx0
    by (rewrite initial_ranks_Ok by done; apply keys_fill).
  destruct (relax_total _ Hx0) as (x1 & Hrun0 & Hx1).
  destruct (relax_total _ Hx1) as (x2 & Hrun1 & Hx2).
  set (B := wnorm (link_share corpus) d (keys corpus) (rank_change x2 x1)).
  assert (0 <= B)%Q as HB.
  { apply wnorm_nonneg;
      first [ apply link_share_nonneg | apply link_share_colsum | lra | done
            | intros; apply Qabs_nonneg ]. }
  destruct (Qpow_small d B ((1 - d) * (1 # 10000)) (Qlt_le_weak _ _ d_pos) d_lt_1 HB)
    as [m Hm]; [lra|].
  exists (S (S m)). intros rnd.
  assert (initial_ranks corpus ≠ []) as Hne
    by (intros Heq; rewrite Heq in Hx0; destruct corpus; [done | discriminate Hx0]).
  destruct (iterate_body_Ok (rnd 0%nat) corpus d (len corpus) _ x1 Hne)
    as (f & Hf & Hbody); [by rewrite Hx0, Hx1 | done |].
  assert (∀ q, q ∈ keys corpus → ((1 - d) / Qnat (len corpus) <= rank_of x1 q)%Q)
    as Hpos1.
  { apply (relax_lower corpus d) with (x := initial_ranks corpus); try done.
    intros q Hq. rewrite initial_ranks_Ok by done.
    unfold rank_of.
    rewrite (dict_get_of_elem _ q (1 / Qnat (len corpus))%Q);
      [| by rewrite keys_fill | apply list_elem_of_fmap; by exists q].
    cbn [default from_option id]. apply Qlt_le_weak, Qdiv_pos; [reflexivity|].
    apply Qnat_pos. destruct corpus; [done | simpl; lia]. }
  unfold iterate_pagerank. cbn zeta.
  change (iterate_loop (S (S m)) rnd corpus d (len corpus) (initial_ranks corpus) 1)
    with (match iterate_body (rnd 0%nat) corpus d (len corpus) (initial_ranks corpus) with
          | Ok (data', change') =>
              iterate_loop (S m) (advance rnd) corpus d (len corpus) data' change'
          | Raise e => Some (Raise e)
          end).
  rewrite Hbody.
  apply (iterate_loop_stops m (advance rnd) x1 x2 _ B); try done;
    first [apply Qle_refl | lra].
Qed.
End iterate_run.


(** X7: on a non-empty corpus with a damping factor in (0,1), in exact
    arithmetic, the loop of [iterate_pagerank] always stops: some number of
    passes is enough whatever pages the random source selects, nothing is
    raised, and the result has the pages of the corpus as its keys, in
    their order. *)
Theorem iterate_pagerank_terminates (corpus : corpus_t) (d : Q) :
  corpus ≠ [] → NoDup (keys corpus) → (0 < d)%Q → (d < 1)%Q →
  ∃ fuel, ∀ rnd : random_source,
    ∃ data,
      iterate_pagerank fuel rnd corpus d = Some (Ok data) ∧
      keys data = keys corpus.
Proof.
  intros Hne Hnd Hd0 Hd1.
  destruct (iterate_pagerank_run corpus d Hne Hnd Hd0 Hd1) as [fuel Hrun].
  exists fuel. intros rnd. destruct (Hrun rnd) as (data & Hdata & Hkeys & _).
  by exists data.
Qed.

Lemma iterate_pagerank_terminates_witness :
  ∃ fuel, ∀ rnd : random_source,
    ∃ data,
      iterate_pagerank fuel rnd corpus_html (85 # 100) = Some (Ok data) ∧
      keys data = keys corpus_html.
Proof.
  apply (iterate_pagerank_terminates corpus_html (85 # 100)).
  - discriminate.
  - by_compute.
  - reflexivity.
  - reflexivity.
Defined.

(** X8: [iterate_pagerank] returns a rank for every page of the corpus,
    the pages that no page links to included, and every rank it returns is
    positive, at least (1-d)/N. *)
Theorem iterate_pagerank_positive (corpus : corpus_t) (d : Q) :
  corpus ≠ [] → NoDup (keys corpus) → (0 < d)%Q → (d < 1)%Q →
  ∃ fuel, ∀ rnd : random_source,
    ∃ data,
      iterate_pagerank fuel rnd corpus d = Some (Ok data) ∧
      keys data = keys corpus ∧
      (∀ p, p ∈ keys corpus →
         ∃ v, dict_get data p = Some v ∧
              (0 < v)%Q ∧ ((1 - d) / Qnat (len corpus) <= v)%Q) ∧
      (∀ p v, dict_get data p = Some v →
         (0 < v)%Q ∧ ((1 - d) / Qnat (len corpus) <= v)%Q).
Proof.
  intros Hne Hnd Hd0 Hd1.
  destruct (iterate_pagerank_run corpus d Hne Hnd Hd0 Hd1) as [fuel Hrun].
  exists fuel. intros rnd. destruct (Hrun rnd) as (data & Hdata & Hkeys & Hlow).
  assert (0 < (1 - d) / Qnat (len corpus))%Q as Hc by (by apply teleport_rank_pos).
  assert (∀ p v, dict_get data p = Some v →
            (0 < v)%Q ∧ ((1 - d) / Qnat (len corpus) <= v)%Q) as Hall.
  { intros p v Hv.
    assert (p ∈ keys corpus) as Hp.
    { rewrite <- Hkeys. destruct (decide (p ∈ keys data)) as [|Hnin]; [done|].
      apply dict_get_None in Hnin. congruence. }
    specialize (Hlow p Hp). unfold rank_of in Hlow. rewrite Hv in Hlow.
    cbn [default from_option id] in Hlow. split; [|done].
    eapply Qlt_le_trans; [exact Hc | exact Hlow]. }
  exists data. split; [done|]. split; [done|]. split; [|done].
  intros p Hp. destruct (dict_get_is_Some data p) as [v Hv]; [by rewrite Hkeys|].
  exists v. split; [done|]. by apply (Hall p).
Qed.

Lemma iterate_pagerank_positive_witness :
  ∃ fuel, ∀ rnd : random_source,
    ∃ data,
      iterate_pagerank fuel rnd corpus_dangling (85 # 100) = Some (Ok data) ∧
      keys data = keys corpus_dangling ∧
      (∀ p, p ∈ keys corpus_dangling →
         ∃ v, dict_get data p = Some v ∧
              (0 < v)%Q ∧ ((1 - (85 # 100)) / Qnat (len corpus_dangling) <= v)%Q) ∧
      (∀ p v, dict_get data p = Some v →
         (0 < v)%Q ∧ ((1 - (85 # 100)) / Qnat (len corpus_dangling) <= v)%Q).
Proof.
  apply (iterate_pagerank_positive corpus_dangling (85 # 100)).
  - discriminate.
  - by_compute.
  - reflexivity.
  - reflexivity.
Defined.

Lemma wnorm_ext (m : string → string → Q) (d : Q) (u v : string → Q) ks :
  (∀ q, q ∈ ks → (u q == v q)%Q) → (wnorm m d ks u == wnorm m d ks v)%Q.
Proof.
  induction ks as [|k ks IH]; intros Huv; cbn [wnorm]; [reflexivity|].
  rewrite (Huv k (list_elem_of_here _ _)), IH; [reflexivity|].
  intros q Hq. by apply Huv, list_elem_of_further.
Qed.

(** X9: the equations that a pass solves have at most one solution: two
    rank mappings over the corpus that a pass leaves unchanged in value
    give every page the same rank. *)
Theorem relax_fixed_point_unique (corpus : corpus_t) (d : Q) (x y x' y' : dict Q) :
  NoDup (keys corpus) → (0 < d)%Q → (d < 1)%Q →
  keys x = keys corpus → keys y = keys corpus →
  relax corpus d (len corpus) x = Ok x' → relax corpus d (len corpus) y = Ok y' →
  (∀ q, q ∈ keys corpus → (rank_of x' q == rank_of x q)%Q) →
  (∀ q, q ∈ keys corpus → (rank_of y' q == rank_of y q)%Q) →
  ∀ q, q ∈ keys corpus → (rank_of x q == rank_of y q)%Q.
Proof.
  intros Hnd Hd0 Hd1 Hx Hy Hrx Hry Hfx Hfy q Hq.
  pose proof (relax_contracts corpus d (len corpus) x y x' y' Hd0 Hd1 Hnd Hx Hy Hrx Hry)
    as Hc.
  rewrite (wnorm_ext _ _ (rank_change x' y') (rank_change x y)) in Hc; last first.
  { intros p Hp. unfold rank_change. by rewrite (Hfx p Hp), (Hfy p Hp). }
  set (W := wnorm (link_share corpus) d (keys corpus) (rank_change x y)) in *.
  assert (0 <= W)%Q as HW0.
  { apply wnorm_nonneg;
      first [ apply link_share_nonneg | apply link_share_colsum | lra | done
            | intros; apply Qabs_nonneg ]. }
  assert ((1 - d) * rank_change x y q <= W)%Q as Hq'.
  { apply wnorm_lower;
      first [ apply link_share_nonneg | apply link_share_colsum | lra | done
            | intros; apply Qabs_nonneg ]. }
  assert (W <= 0)%Q as HW.
  { destruct (Qlt_le_dec 0 W) as [Hpos|]; [|done].
    assert (d * W < 1 * W)%Q; [|lra]. apply Qmult_lt_compat_r; lra. }
  assert (rank_change x y q <= 0)%Q as Hzero.
  { destruct (Qlt_le_dec 0 (rank_change x y q)) as [Hpos|]; [|done].
    assert (0 < (1 - d) * rank_change x y q)%Q; [|lra].
    apply Qmult_lt_0_compat; lra. }
  unfold rank_change in Hzero.
  apply Qabs_Qle_condition in Hzero as [Hlo Hhi]. lra.
Qed.

Lemma relax_fixed_point_unique_witness :
  (rank_of [("A", 1 # 2); ("B", 1 # 2)] "A"
   == rank_of [("A", 2 # 4); ("B", 3 # 6)] "A")%Q.
Proof.
  eapply (relax_fixed_point_unique corpus_pair (85 # 100)
            [("A", 1 # 2); ("B", 1 # 2)] [("A", 2 # 4); ("B", 3 # 6)]).
  - by_compute.
  - reflexivity.
  - reflexivity.
  - reflexivity.
  - reflexivity.
  - vm_compute. reflexivity.
  - vm_compute. reflexivity.
  - intros q Hq. apply list_elem_of_In in Hq. simpl in Hq.
    destruct Hq as [<-|[<-|[]]]; by vm_compute.
  - intros q Hq. apply list_elem_of_In in Hq. simpl in Hq.
    destruct Hq as [<-|[<-|[]]]; by vm_compute.
  - by_compute.
Defined.


(** *** What the loop condition gives *)

Lemma keep_going_small change :
  keep_going change = false → (Qabs change <= 1 # 10000)%Q.
Proof.
  unfold keep_going, Qlt_bool. intros [H1 H2]%orb_false_elim.
  apply negb_false_iff, Qle_bool_iff in H1, H2.
  apply Qabs_Qle_condition. by split.
Qed.

Lemma iterate_body_inv raw (corpus : corpus_t) d N (x x' : dict Q) change :
  iterate_body raw corpus d N x = Ok (x', change) →
  ∃ f, f ∈ keys x ∧ relax corpus d N x = Ok x' ∧
       change = (rank_of x' f - rank_of x f)%Q.
Proof.
  unfold iterate_body, list_index, getitem.
  destruct (randrange raw (len x)) as [i|]; cbn [mbind result_bind]; [|done].
  destruct (keys x !! i) as [f|] eqn:Hf; cbn [mbind result_bind]; [|done].
  destruct (dict_get x f) as [v|] eqn:Hv; cbn [mbind result_bind]; [|done].
  destruct (relax corpus d N x) as [x1|]; cbn [mbind result_bind]; [|done].
  destruct (dict_get x1 f) as [v'|] eqn:Hv'; cbn [mbind result_bind]; [|done].
  intros [= <- <-]. exists f. split; [by eapply list_elem_of_lookup_2|].
  split; [done|]. unfold rank_of. by rewrite Hv, Hv'.
Qed.

(** What the loop returns is the mapping it was entered with, or the
    result of a pass in which the rank of the page that was drawn moved by
    0.0001 at most. *)
Lemma iterate_loop_result fuel (corpus : corpus_t) d N :
  ∀ (rnd : random_source) (x : dict Q) change data,
    iterate_loop fuel rnd corpus d N x change = Some (Ok data) →
    (data = x ∧ keep_going change = false) ∨
    ∃ previous f,
      f ∈ keys previous ∧ relax corpus d N previous = Ok data ∧
      (Qabs (rank_of data f - rank_of previous f) <= 1 # 10000)%Q.
Proof.
  induction fuel as [|fuel IH]; intros rnd x change data; cbn [iterate_loop].
  - destruct (keep_going change) eqn:Hgo; [done|]. intros [= <-]. by left.
  - destruct (keep_going change) eqn:Hgo; [|intros [= <-]; by left].
    destruct (iterate_body (rnd 0%nat) corpus d N x) as [[x' change']|e] eqn:Hbody;
      [|done].
    intros Hrun. right.
    destruct (IH _ _ _ _ Hrun) as [[-> Hstop]|Hlater]; [|done].
    destruct (iterate_body_inv _ _ _ _ _ _ _ Hbody) as (f & Hf & Hrelax & ->).
    exists x, f. split; [done|]. split; [done|]. by apply keep_going_small.
Qed.

Lemma relax_page_keys (corpus : corpus_t) d N (x x' : dict Q) f :
  f ∈ keys x → relax_page corpus d N x f = Ok x' → keys x' = keys x.
Proof.
  intros Hf. unfold relax_page.
  destruct (inbound_sum corpus x f); cbn [mbind result_bind]; [|done].
  intros [= <-]. by apply keys_dict_set_in.
Qed.

Lemma relax_keys (corpus : corpus_t) d N (x x' : dict Q) :
  relax corpus d N x = Ok x' → keys x' = keys x.
Proof.
  unfold relax. assert (∀ k, k ∈ keys x → k ∈ keys x) as Hsub by done.
  revert Hsub. generalize (keys x) at 1 3 as ks. intros ks. revert x.
  induction ks as [|k ks IH]; intros x Hsub; cbn [for_in].
  - by intros [= <-].
  - destruct (relax_page corpus d N x k) as [x1|] eqn:Hpage;
      cbn [mbind result_bind]; [|done].
    assert (keys x1 = keys x) as Hkeys.
    { eapply relax_page_keys; [|done]. apply Hsub, list_elem_of_here. }
    intros Hrun. rewrite <- Hkeys. apply IH; [|done].
    intros k' Hk'. rewrite Hkeys. by apply Hsub, list_elem_of_further.
Qed.

Lemma keep_going_large change :
  keep_going change = true → (1 # 10000 < Qabs change)%Q.
Proof.
  unfold keep_going, Qlt_bool. intros [H|H]%orb_true_iff.
  - apply negb_true_iff in H. apply Qnot_le_lt. intros Hle.
    assert (Qle_bool change (1 # 10000) = true); [|congruence].
    apply Qle_bool_iff. eapply Qle_trans; [apply Qle_Qabs | done].
  - apply negb_true_iff in H. apply Qnot_le_lt. intros Hle.
    assert (Qle_bool (- (1 # 10000)) change = true); [|congruence].
    apply Qle_bool_iff. apply Qabs_Qle_condition in Hle. tauto.
Qed.

Lemma iterate_body_pick raw (corpus : corpus_t) d N (x x' : dict Q) change :
  iterate_body raw corpus d N x = Ok (x', change) →
  ∃ i f,
    randrange raw (len x) = Ok i ∧ list_index (keys x) i = Ok f ∧
    relax corpus d N x = Ok x' ∧
    change = (rank_of x' f - rank_of x f)%Q.
Proof.
  unfold iterate_body, list_index, getitem.
  destruct (randrange raw (len x)) as [i|]; cbn [mbind result_bind]; [|done].
  destruct (keys x !! i) as [f|] eqn:Hf; cbn [mbind result_bind]; [|done].
  destruct (dict_get x f) as [v|] eqn:Hv; cbn [mbind result_bind]; [|done].
  destruct (relax corpus d N x) as [x1|]; cbn [mbind result_bind]; [|done].
  destruct (dict_get x1 f) as [v'|] eqn:Hv'; cbn [mbind result_bind]; [|done].
  intros [= <- <-]. exists i, f. rewrite Hf. repeat split; try done.
  unfold rank_of. by rewrite Hv, Hv'.
Qed.

(** The loop, pass by pass: when it returns after being entered with a
    change above the threshold, it returns the result of pass number [k]
    (counted from 0), the first pass in which the page that [randrange]
    picked moved by 0.0001 at most. *)
Lemma iterate_loop_trace fuel (corpus : corpus_t) d :
  ∀ (rnd : random_source) (x : dict Q) change data,
    keys x = keys corpus →
    keep_going change = true →
    iterate_loop fuel rnd corpus d (len corpus) x change = Some (Ok data) →
    ∃ k previous i f,
      relax_n corpus d (len corpus) k x = Ok previous ∧
      relax corpus d (len corpus) previous = Ok data ∧
      randrange (rnd k) (len corpus) = Ok i ∧
      list_index (keys corpus) i = Ok f ∧
      (Qabs (rank_of data f - rank_of previous f) <= 1 # 10000)%Q ∧
      ∀ j, (j < k)%nat →
        ∃ xj xj' ij fj,
          relax_n corpus d (len corpus) j x = Ok xj ∧
          relax corpus d (len corpus) xj = Ok xj' ∧
          randrange (rnd j) (len corpus) = Ok ij ∧
          list_index (keys corpus) ij = Ok fj ∧
          (1 # 10000 < Qabs (rank_of xj' fj - rank_of xj fj))%Q.
Proof.
  induction fuel as [|fuel IH]; intros rnd x change data Hx Hgo;
    cbn [iterate_loop]; rewrite Hgo; [done|].
  destruct (iterate_body (rnd 0%nat) corpus d (len corpus) x)
    as [[x' change']|e] eqn:Hbody; [|done].
  destruct (iterate_body_pick _ _ _ _ _ _ _ Hbody) as (i & f & Hi & Hf & Hrelax & ->).
  assert (len x = len corpus) as Hlen
    by (unfold len, keys in *; by rewrite <- (length_fmap fst x), Hx, length_fmap).
  rewrite Hlen in Hi. rewrite Hx in Hf.
  assert (keys x' = keys corpus) as Hx'
    by (by rewrite (relax_keys _ _ _ _ _ Hrelax)).
  destruct (keep_going (rank_of x' f - rank_of x f)) eqn:Hgo'.
  - intros Hrun.
    destruct (IH (advance rnd) x' _ data Hx' Hgo' Hrun)
      as (k & previous & i' & f' & Hprev & Hlast & Hi' & Hf' & Hsmall & Hearlier).
    exists (S k), previous, i', f'. split; [|split; [done|]].
    { cbn [relax_n]. by rewrite Hrelax. }
    split; [done|]. split; [done|]. split; [done|].
    intros [|j] Hj.
    + exists x, x', i, f. repeat split; try done. by apply keep_going_large.
    + destruct (Hearlier j) as (xj & xj' & ij & fj & H1 & H2 & H3 & H4 & H5); [lia|].
      exists xj, xj', ij, fj. split; [|done].
      cbn [relax_n]. by rewrite Hrelax.
  - intros Hrun.
    assert (data = x') as ->.
    { destruct fuel; cbn [iterate_loop] in Hrun; rewrite Hgo' in Hrun; congruence. }
    exists 0%nat, x, i, f. split; [done|]. split; [done|]. split; [done|].
    split; [done|]. split; [by apply keep_going_small|]. intros j Hj. lia.
Qed.

(** X10: what the loop condition of [iterate_pagerank] guarantees.  The
    loop returns the result of the first pass, number [k] from the initial
    ranks, in which the page that [randrange] picked for that pass moved by
    0.0001 at most; in every pass before it the picked page moved by more.
    The condition looks at the picked page only. *)
Theorem iterate_pagerank_last_change (corpus : corpus_t) (d : Q) :
  corpus ≠ [] → NoDup (keys corpus) → (0 < d)%Q → (d < 1)%Q →
  ∃ fuel, ∀ rnd : random_source,
    ∃ k previous data i f,
      iterate_pagerank fuel rnd corpus d = Some (Ok data) ∧
      relax_n corpus d (len corpus) k (initial_ranks corpus) = Ok previous ∧
      relax corpus d (len corpus) previous = Ok data ∧
      randrange (rnd k) (len corpus) = Ok i ∧
      list_index (keys corpus) i = Ok f ∧
      (Qabs (rank_of data f - rank_of previous f) <= 1 # 10000)%Q ∧
      ∀ j, (j < k)%nat →
        ∃ xj xj' ij fj,
          relax_n corpus d (len corpus) j (initial_ranks corpus) = Ok xj ∧
          relax corpus d (len corpus) xj = Ok xj' ∧
          randrange (rnd j) (len corpus) = Ok ij ∧
          list_index (keys corpus) ij = Ok fj ∧
          (1 # 10000 < Qabs (rank_of xj' fj - rank_of xj fj))%Q.
Proof.
  intros Hne Hnd Hd0 Hd1.
  destruct (iterate_pagerank_run corpus d Hne Hnd Hd0 Hd1) as [fuel Hrun].
  exists fuel. intros rnd. destruct (Hrun rnd) as (data & Hdata & _ & _).
  assert (keys (initial_ranks corpus) = keys corpus) as Hx0
    by (rewrite initial_ranks_Ok by done; apply keys_fill).
  destruct (iterate_loop_trace fuel corpus d rnd (initial_ranks corpus) 1 data Hx0)
    as (k & previous & i & f & H); [done | exact Hdata |].
  by exists k, previous, data, i, f.
Qed.

Lemma iterate_pagerank_last_change_witness :
  ∃ fuel, ∀ rnd : random_source,
    ∃ k previous data i f,
      iterate_pagerank fuel rnd corpus_abc (85 # 100) = Some (Ok data) ∧
      relax_n corpus_abc (85 # 100) (len corpus_abc) k (initial_ranks corpus_abc)
      = Ok previous ∧
      relax corpus_abc (85 # 100) (len corpus_abc) previous = Ok data ∧
      randrange (rnd k) (len corpus_abc) = Ok i ∧
      list_index (keys corpus_abc) i = Ok f ∧
      (Qabs (rank_of data f - rank_of previous f) <= 1 # 10000)%Q ∧
      ∀ j, (j < k)%nat →
        ∃ xj xj' ij fj,
          relax_n corpus_abc (85 # 100) (len corpus_abc) j (initial_ranks corpus_abc)
          = Ok xj ∧
          relax corpus_abc (85 # 100) (len corpus_abc) xj = Ok xj' ∧
          randrange (rnd j) (len corpus_abc) = Ok ij ∧
          list_index (keys corpus_abc) ij = Ok fj ∧
          (1 # 10000 < Qabs (rank_of xj' fj - rank_of xj fj))%Q.
Proof.
  apply (iterate_pagerank_last_change corpus_abc (85 # 100)).
  - discriminate.
  - by_compute.
  - reflexivity.
  - reflexivity.
Defined.

(** *** Corpora on which the uniform ranks are the solution *)

Lemma rowsum_const (m : string → string → Q) f js (v : string → Q) (c : Q) :
  (∀ q, q ∈ js → (v q == c)%Q) →
  (rowsum m f js v == c * rowsum m f js (λ _, 1))%Q.
Proof.
  intros Hv. unfold rowsum.
  rewrite (Qsum_ext _ (λ j, m f j * 1 * c)%Q)
    by (intros j Hj; rewrite (Hv j Hj); ring).
  rewrite (Qsum_scale (λ j, m f j * 1)%Q). ring.
Qed.

(** X11: on a corpus where the shares that every page receives add up to 1
    (two pages that link to each other, a cycle), the first pass leaves
    every rank at 1/N, the loop stops after it, and [iterate_pagerank]
    returns the rank 1/N for every page, for every damping factor and
    every random source. *)
Theorem iterate_pagerank_uniform (fuel : nat) (rnd : random_source)
    (corpus : corpus_t) (d : Q) :
  corpus ≠ [] → NoDup (keys corpus) →
  (∀ f, f ∈ keys corpus →
     (rowsum (link_share corpus) f (keys corpus) (λ _, 1) == 1)%Q) →
  ∃ data,
    iterate_pagerank (S fuel) rnd corpus d = Some (Ok data) ∧
    keys data = keys corpus ∧
    ∀ q, q ∈ keys corpus → (rank_of data q == 1 / Qnat (len corpus))%Q.
Proof.
  intros Hne Hnd Hreg.
  assert (0 < Qnat (len corpus))%Q as HN
    by (apply Qnat_pos; destruct corpus; [done | simpl; lia]).
  assert (keys (initial_ranks corpus) = keys corpus) as Hx0
    by (rewrite initial_ranks_Ok by done; apply keys_fill).
  assert (∀ q, q ∈ keys corpus →
            rank_of (initial_ranks corpus) q = (1 / Qnat (len corpus))%Q) as Hinit.
  { intros q Hq. rewrite initial_ranks_Ok by done. unfold rank_of.
    rewrite (dict_get_of_elem _ q (1 / Qnat (len corpus))%Q);
      [done | by rewrite keys_fill | apply list_elem_of_fmap; by exists q]. }
  destruct (relax_rows corpus d (len corpus) (initial_ranks corpus))
    as (x1 & Hrun & Hx1 & Hrow); [by rewrite Hx0 | done |].
  rewrite Hx0 in Hrow, Hx1.
  assert (∀ before f after, keys corpus = before ++ f :: after →
            (∀ q, q ∈ before → (rank_of x1 q == 1 / Qnat (len corpus))%Q) ∧
            (rank_of x1 f == 1 / Qnat (len corpus))%Q) as Hall.
  { induction before as [|g before IH] using rev_ind; intros f after Hsplit.
    - split; [intros q Hq; by apply elem_of_nil in Hq|].
      rewrite (Hrow [] f after Hsplit).
      rewrite (rowsum_const _ f (f :: after) _ (1 / Qnat (len corpus))%Q); last first.
      { intros q Hq. rewrite Hinit; [reflexivity|]. rewrite Hsplit.
        by apply elem_of_app; right. }
      pose proof (Hreg f) as Hf. rewrite Hsplit in Hf at 2. cbn [app] in Hf.
      rewrite Hf by (rewrite Hsplit; apply list_elem_of_here).
      unfold rowsum. cbn [map Qsum]. field. lra.
    - rewrite <- app_assoc in Hsplit. cbn [app] in Hsplit.
      destruct (IH g (f :: after) Hsplit) as [Hbefore Hg].
      assert (∀ q, q ∈ before ++ [g] →
                (rank_of x1 q == 1 / Qnat (len corpus))%Q) as Hbefore'.
      { intros q [Hq| ->%list_elem_of_singleton]%elem_of_app; auto. }
      split; [done|].
      assert (keys corpus = (before ++ [g]) ++ f :: after) as Hsplit'
        by (by rewrite <- app_assoc).
      rewrite (Hrow (before ++ [g]) f after Hsplit').
      rewrite (rowsum_const _ f (before ++ [g]) _ (1 / Qnat (len corpus))%Q)
        by done.
      rewrite (rowsum_const _ f (f :: after) _ (1 / Qnat (len corpus))%Q); last first.
      { intros q Hq. rewrite Hinit; [reflexivity|]. rewrite Hsplit'.
        by apply elem_of_app; right. }
      pose proof (Hreg f) as Hf. rewrite Hsplit' in Hf at 2.
      rewrite rowsum_app in Hf.
      assert (f ∈ keys corpus) as Hfin
        by (rewrite Hsplit'; apply elem_of_app; right; apply list_elem_of_here).
      specialize (Hf Hfin).
      set (R1 := rowsum (link_share corpus) f (before ++ [g]) (λ _, 1%Q)) in *.
      set (R2 := rowsum (link_share corpus) f (f :: after) (λ _, 1%Q)) in *.
      assert ((1 - d) / Qnat (len corpus)
              + d * (1 / Qnat (len corpus) * R1 + 1 / Qnat (len corpus) * R2)
              == (1 - d) / Qnat (len corpus)
                 + d * (1 / Qnat (len corpus)) * (R1 + R2))%Q as -> by ring.
      rewrite Hf. field. lra. }
  assert (∀ q, q ∈ keys corpus → (rank_of x1 q == 1 / Qnat (len corpus))%Q) as Huni.
  { intros q [before [after Hsplit]]%list_elem_of_split.
    by destruct (Hall before q after Hsplit). }
  assert (initial_ranks corpus ≠ []) as Hne0
    by (intros Heq; rewrite Heq in Hx0; destruct corpus; [done | discriminate Hx0]).
  destruct (iterate_body_Ok (rnd 0%nat) corpus d (len corpus) _ x1 Hne0)
    as (f & Hf & Hbody); [by rewrite Hx0, Hx1 | done |].
  rewrite Hx0 in Hf.
  exists x1. split; [|by split].
  unfold iterate_pagerank. cbn zeta.
  change (iterate_loop (S fuel) rnd corpus d (len corpus) (initial_ranks corpus) 1)
    with (match iterate_body (rnd 0%nat) corpus d (len corpus) (initial_ranks corpus) with
          | Ok (data', change') =>
              iterate_loop fuel (advance rnd) corpus d (len corpus) data' change'
          | Raise e => Some (Raise e)
          end).
  rewrite Hbody.
  assert (keep_going (rank_of x1 f - rank_of (initial_ranks corpus) f) = false) as Hstop.
  { apply keep_going_false. rewrite (Huni f Hf), (Hinit f Hf).
    assert (1 / Qnat (len corpus) - 1 / Qnat (len corpus) == 0)%Q as -> by ring.
    by vm_compute. }
  destruct fuel; cbn [iterate_loop]; by rewrite Hstop.
Qed.

Lemma iterate_pagerank_uniform_witness :
  ∃ data,
    iterate_pagerank 1 (λ _, 3%N) corpus_pair (85 # 100) = Some (Ok data) ∧
    keys data = keys corpus_pair ∧
    ∀ q, q ∈ keys corpus_pair → (rank_of data q == 1 / Qnat (len corpus_pair))%Q.
Proof.
  apply (iterate_pagerank_uniform 0 (λ _, 3%N) corpus_pair (85 # 100)).
  - discriminate.
  - by_compute.
  - intros f Hf. apply list_elem_of_In in Hf. simpl in Hf.
    destruct Hf as [<-|[<-|[]]]; by vm_compute.
Defined.


(** ** From the directory to the ranks: what [main] computes *)

Lemma crawl_nonempty (directory : directory_t) :
  (∃ name, name ∈ directory.*1 ∧ endswith name ".html" = true) →
  ∃ corpus, crawl directory = Ok corpus ∧ corpus ≠ [] ∧ NoDup (keys corpus).
Proof.
  intros (name & Hin & Hhtml).
  destruct (crawl_extract_ok directory) as (Hnd & _ & Hkeys).
  eexists. split; [apply crawl_Ok|]. split.
  - intros Hnil. apply (f_equal keys) in Hnil. rewrite keys_map_values in Hnil.
    assert (name ∈ keys (crawl_extract directory)) as Hname by (by apply Hkeys).
    rewrite Hnil in Hname. by apply elem_of_nil in Hname.
  - by rewrite keys_map_values.
Qed.

(** X12: the sampling that [main] runs, from the listing on.  Given the
    listing of a directory with the references found in each file (the
    files have been listed and read), with at least one name ending in
    ".html": for every random source, [crawl] returns a corpus and
    [sample_pagerank] on it, with the damping factor 0.85 and 10000
    samples, raises nothing and returns one rank per page of the corpus,
    each between 0 and 1. *)
Theorem main_sampling (directory : directory_t) (rnd : random_source) :
  (∃ name, name ∈ directory.*1 ∧ endswith name ".html" = true) →
  ∃ corpus data,
    crawl directory = Ok corpus ∧
    sample_pagerank rnd corpus DAMPING SAMPLES = Ok data ∧
    keys data = keys corpus ∧
    (∀ v, v ∈ values data → (0 <= v <= 1)%Q).
Proof.
  intros Hhtml.
  destruct (crawl_nonempty directory Hhtml) as (corpus & Hcrawl & Hne & Hnd).
  destruct (sample_pagerank_Ok rnd corpus DAMPING SAMPLES)
    as (visits & Hlen & Hvis & Hrun); [done | done | reflexivity | reflexivity | done |].
  exists corpus. eexists. split; [done|]. split; [exact Hrun|].
  rewrite keys_fill, values_fill. split; [done|].
  intros v [k [-> _]]%list_elem_of_fmap. apply count_ratio_range; [|done].
  pose proof (visit_count_range k visits). unfold SAMPLES in *. lia.
Qed.

Lemma main_sampling_witness :
  ∃ corpus data,
    crawl directory_example = Ok corpus ∧
    sample_pagerank (tape_of draws_3_6_1) corpus DAMPING SAMPLES = Ok data ∧
    keys data = keys corpus ∧
    (∀ v, v ∈ values data → (0 <= v <= 1)%Q).
Proof.
  apply (main_sampling directory_example (tape_of draws_3_6_1)).
  exists "1.html". split; [by_compute | reflexivity].
Defined.

(** X13: the iteration that [main] runs, from the listing on.  Given the
    listing of a directory with the references found in each file (the
    files have been listed and read), with at least one name ending in
    ".html": [crawl] returns a corpus and, in exact arithmetic,
    [iterate_pagerank] on it with the damping factor 0.85 stops after a
    number of passes that is bounded whatever the random source draws,
    raises nothing and returns one rank per page of the corpus. *)
Theorem main_iteration (directory : directory_t) :
  (∃ name, name ∈ directory.*1 ∧ endswith name ".html" = true) →
  ∃ corpus fuel,
    crawl directory = Ok corpus ∧
    ∀ rnd : random_source,
      ∃ data,
        iterate_pagerank fuel rnd corpus DAMPING = Some (Ok data) ∧
        keys data = keys corpus.
Proof.
  intros Hhtml.
  destruct (crawl_nonempty directory Hhtml) as (corpus & Hcrawl & Hne & Hnd).
  destruct (iterate_pagerank_run corpus DAMPING Hne Hnd) as [fuel Hrun];
    [reflexivity | reflexivity |].
  exists corpus, fuel. split; [done|]. intros rnd.
  destruct (Hrun rnd) as (data & Hdata & Hkeys & _). by exists data.
Qed.

Lemma main_iteration_witness :
  ∃ corpus fuel,
    crawl directory_example = Ok corpus ∧
    ∀ rnd : random_source,
      ∃ data,
        iterate_pagerank fuel rnd corpus DAMPING = Some (Ok data) ∧
        keys data = keys corpus.
Proof.
  apply (main_iteration directory_example).
  exists "1.html". split; [by_compute | reflexivity].
Defined.

(** ** The random source of iterate_pagerank *)

(** The loop uses a draw only through the index that [randrange] makes of
    it. *)
Lemma iterate_loop_same_pages fuel (corpus : corpus_t) d :
  ∀ (rnd1 rnd2 : random_source) (x : dict Q) change,
    len x = len corpus →
    (∀ k, randrange (rnd1 k) (len corpus) = randrange (rnd2 k) (len corpus)) →
    iterate_loop fuel rnd1 corpus d (len corpus) x change
    = iterate_loop fuel rnd2 corpus d (len corpus) x change.
Proof.
  induction fuel as [|fuel IH]; intros rnd1 rnd2 x change Hlen Hsame;
    cbn [iterate_loop]; [done|].
  destruct (keep_going change); [|done].
  assert (iterate_body (rnd1 0%nat) corpus d (len corpus) x
          = iterate_body (rnd2 0%nat) corpus d (len corpus) x) as Hbody.
  { unfold iterate_body. by rewrite Hlen, (Hsame 0%nat). }
  rewrite <- Hbody.
  destruct (iterate_body (rnd1 0%nat) corpus d (len corpus) x)
    as [[x' change']|e] eqn:Hrun; [|done].
  apply IH.
  - destruct (iterate_body_inv _ _ _ _ _ _ _ Hrun) as (f & _ & Hrelax & _).
    apply relax_keys in Hrelax. unfold len, keys in *.
    rewrite <- Hlen, <- (length_fmap fst x'), Hrelax. apply length_fmap.
  - intros k. apply (Hsame (S k)).
Qed.

(** C3, as the code has it: the ranks that [iterate_pagerank] returns are a
    function of the corpus, the damping factor and the indices that
    [randrange] returns, one per pass.  On a non-empty corpus with a
    damping factor in (0,1), two runs in which [randrange] returns the same
    indices both return, and return the same ranks, whatever the raw values
    behind the indices are. *)
Theorem iterate_pagerank_same_draws (rnd1 rnd2 : random_source)
    (corpus : corpus_t) (d : Q) :
  corpus ≠ [] → NoDup (keys corpus) → (0 < d)%Q → (d < 1)%Q →
  (∀ k, randrange (rnd1 k) (len corpus) = randrange (rnd2 k) (len corpus)) →
  ∃ fuel data,
    ∀ extra,
      iterate_pagerank (fuel + extra) rnd1 corpus d = Some (Ok data) ∧
      iterate_pagerank (fuel + extra) rnd2 corpus d = Some (Ok data).
Proof.
  intros Hne Hnd Hd0 Hd1 Hsame.
  destruct (iterate_pagerank_run corpus d Hne Hnd Hd0 Hd1) as [fuel Hrun].
  destruct (Hrun rnd1) as (data & Hdata & _ & _).
  exists fuel, data. intros extra.
  assert (iterate_pagerank (fuel + extra) rnd1 corpus d = Some (Ok data)) as H1
    by (by apply iterate_pagerank_more_fuel).
  split; [done|]. rewrite <- H1. symmetry.
  apply iterate_loop_same_pages; [|done].
  rewrite initial_ranks_Ok by done. unfold len, keys.
  by rewrite length_map, length_fmap.
Qed.

Lemma iterate_pagerank_same_draws_witness :
  ∃ fuel data,
    ∀ extra,
      iterate_pagerank (fuel + extra) (λ _, 0%N) corpus_abc (85 # 100)
      = Some (Ok data) ∧
      iterate_pagerank (fuel + extra) (λ k, 3 + 6 * N.of_nat k)%N corpus_abc (85 # 100)
      = Some (Ok data).
Proof.
  apply (iterate_pagerank_same_draws (λ _, 0%N) (λ k, 3 + 6 * N.of_nat k)%N
           corpus_abc (85 # 100)).
  - discriminate.
  - by_compute.
  - reflexivity.
  - reflexivity.
  - intros k. unfold randrange. cbn [len length corpus_abc].
    rewrite decide_False by lia. f_equal. f_equal.
    change (N.of_nat 3) with 3%N.
    replace (3 + 6 * N.of_nat k)%N with (0 + (1 + 2 * N.of_nat k) * 3)%N by lia.
    by rewrite N.Div0.mod_add.
Defined.

(** ** The weighted draw of [choices] *)

Lemma accumulate_from_lookup ws : ∀ acc k,
  (k < length ws)%nat →
  ∃ c, accumulate_from acc ws !! k = Some c ∧ (c == acc + Qsum (take (S k) ws))%Q.
Proof.
  induction ws as [|w ws IH]; intros acc k Hk; [simpl in Hk; lia|].
  destruct k as [|k]; cbn [accumulate_from].
  - exists (acc + w)%Q. split; [done|]. cbn [firstn Qsum]; rewrite ?take_0; cbn [Qsum]. ring.
  - destruct (IH (acc + w)%Q k) as (c & Hc & Heq); [simpl in Hk; lia|].
    exists c. split; [done|]. rewrite Heq. cbn [firstn Qsum]; rewrite ?take_0; cbn [Qsum]. ring.
Qed.

Lemma accumulate_lookup ws k :
  (k < length ws)%nat →
  ∃ c, accumulate ws !! k = Some c ∧ (c == Qsum (take (S k) ws))%Q.
Proof.
  destruct ws as [|w ws]; intros Hk; [simpl in Hk; lia|].
  destruct k as [|k]; cbn [accumulate].
  - exists w. split; [done|]. cbn [firstn Qsum]; rewrite ?take_0; cbn [Qsum]. ring.
  - destruct (accumulate_from_lookup ws w k) as (c & Hc & Heq); [simpl in Hk; lia|].
    exists c. split; [done|]. rewrite Heq. cbn [firstn Qsum]; rewrite ?take_0; cbn [Qsum]. reflexivity.
Qed.

Lemma Qsum_take_mono ws : ∀ j k,
  (∀ w, w ∈ ws → (0 <= w)%Q) → (j ≤ k)%nat →
  (Qsum (take j ws) <= Qsum (take k ws))%Q.
Proof.
  induction ws as [|w ws IH]; intros j k Hpos Hjk.
  - rewrite !take_nil. apply Qle_refl.
  - pose proof (Hpos w (list_elem_of_here _ _)) as Hw.
    assert (∀ w', w' ∈ ws → (0 <= w')%Q) as Hpos'
      by (intros w' Hw'; by apply Hpos, list_elem_of_further).
    destruct j as [|j], k as [|k]; cbn [firstn Qsum]; rewrite ?take_0; cbn [Qsum]; try lia.
    + apply Qle_refl.
    + assert (0 <= Qsum (take k ws))%Q; [|lra].
      apply (IH 0%nat k Hpos'). lia.
    + assert (Qsum (take j ws) <= Qsum (take k ws))%Q; [|lra].
      apply IH; [done | lia].
Qed.

(** [bisect_right] on a sorted list: everything before the index it
    returns is at most [x], everything from there on is above [x]. *)
Lemma bisect_loop_spec (a : list Q) (x : Q) :
  (∀ j k cj ck, (j ≤ k)%nat → a !! j = Some cj → a !! k = Some ck → (cj <= ck)%Q) →
  ∀ fuel lo hi,
    (hi - lo ≤ fuel)%nat → (lo ≤ hi)%nat → (hi < length a)%nat →
    (∀ k c, (k < lo)%nat → a !! k = Some c → (c <= x)%Q) →
    (∀ k c, (hi ≤ k)%nat → a !! k = Some c → (x < c)%Q) →
    ∃ i, bisect_loop fuel a x lo hi = Ok i ∧ (lo ≤ i ≤ hi)%nat ∧
         (∀ k c, (k < i)%nat → a !! k = Some c → (c <= x)%Q) ∧
         (∀ k c, (i ≤ k)%nat → a !! k = Some c → (x < c)%Q).
Proof.
  intros Hsorted. induction fuel as [|fuel IH];
    intros lo hi Hfuel Hlo Hhi Hbelow Habove; cbn [bisect_loop].
  - exists lo. split; [done|]. split; [lia|]. split; [done|].
    intros k c Hk. apply Habove. lia.
  - destruct (decide (lo < hi)%nat) as [Hlt|Hge]; last first.
    { exists lo. split; [done|]. split; [lia|]. split; [done|].
      intros k c Hk. apply Habove. lia. }
    assert (lo ≤ (lo + hi) `div` 2 < hi)%nat as [Hmid1 Hmid2].
    { split; [apply Nat.div_le_lower_bound | apply Nat.Div0.div_lt_upper_bound]; lia. }
    set (mid := ((lo + hi) `div` 2)%nat) in *.
    destruct (lookup_lt_is_Some_2 a mid) as [a_mid Hmid]; [lia|].
    unfold list_index. rewrite Hmid. cbn [mbind result_bind].
    destruct (Qlt_bool x a_mid) eqn:Hcmp.
    + assert (x < a_mid)%Q as Hx.
      { unfold Qlt_bool in Hcmp. apply negb_true_iff in Hcmp.
        apply Qnot_le_lt. intros Hle. apply Qle_bool_iff in Hle. congruence. }
      destruct (IH lo mid) as (i & Hi & Hrange & Hb & Ha); [lia | lia | lia | done | |].
      { intros k c Hk Hc. eapply Qlt_le_trans; [exact Hx|].
        by apply (Hsorted mid k a_mid c). }
      exists i. split; [done|]. split; [lia | by split].
    + assert (a_mid <= x)%Q as Hx.
      { unfold Qlt_bool in Hcmp. apply negb_false_iff in Hcmp.
        by apply Qle_bool_iff. }
      destruct (IH (mid + 1)%nat hi) as (i & Hi & Hrange & Hb & Ha);
        [lia | lia | lia | | done |].
      { intros k c Hk Hc. eapply Qle_trans; [|exact Hx].
        apply (Hsorted k mid c a_mid); [lia | done | done]. }
      exists i. split; [done|]. split; [lia | by split].
Qed.

Lemma unit_draw_range raw : (0 <= unit_draw raw)%Q ∧ (unit_draw raw < 1)%Q.
Proof.
  unfold unit_draw, Qle, Qlt. cbn [Qnum Qden].
  assert (raw `mod` 2 ^ 53 < 2 ^ 53)%N as Hmod by (by apply N.mod_upper_bound).
  apply N2Z.inj_lt in Hmod.
  pose proof (N2Z.is_nonneg (raw `mod` 2 ^ 53)) as Hpos.
  change (Z.of_N (2 ^ 53)) with (Z.pos (2 ^ 53)) in Hmod.
  set (r := Z.of_N (raw `mod` 2 ^ 53)) in *. set (c := Z.pos (2 ^ 53)) in *.
  lia.
Qed.

(** What [choices] returns: the page at the one index [k] whose stretch of
    the running sums of the weights holds the draw scaled by their total.
    The stretch of a page is as long as its weight. *)
Lemma choices_spec raw (population : list string) (weights : list Q) :
  population ≠ [] → length weights = length population →
  (∀ w, w ∈ weights → (0 < w)%Q) →
  ∃ k page,
    choices raw population weights = Ok page ∧
    population !! k = Some page ∧
    (Qsum (take k weights) <= unit_draw raw * Qsum weights)%Q ∧
    (unit_draw raw * Qsum weights < Qsum (take (S k) weights))%Q.
Proof.
  intros Hne Hlen Hpos.
  assert (0 < length population)%nat as Hn by (destruct population; [done | simpl; lia]).
  assert (∀ w, w ∈ weights → (0 <= w)%Q) as Hpos0
    by (intros w Hw; apply Qlt_le_weak; by apply Hpos).
  destruct (unit_draw_range raw) as [Hu0 Hu1].
  unfold choices. rewrite decide_True by (by rewrite length_accumulate).
  destruct (accumulate_lookup weights (length population - 1)) as (total & Htot & Htoteq);
    [lia|].
  rewrite last_lookup, length_accumulate, Hlen.
  replace (pred (length population)) with (length population - 1)%nat by lia.
  rewrite Htot.
  replace (S (length population - 1)) with (length weights) in Htoteq by lia.
  rewrite firstn_all in Htoteq.
  assert (0 < Qsum weights)%Q as Hsum.
  { destruct weights as [|w ws]; [simpl in Hlen; lia|]. cbn [Qsum].
    pose proof (Hpos w (list_elem_of_here _ _)).
    assert (0 <= Qsum ws)%Q; [|lra].
    rewrite <- (map_id ws). apply Qsum_nonneg. intros w' Hw'.
    by apply Hpos0, list_elem_of_further. }
  replace (Qle_bool total 0) with false; last first.
  { symmetry. apply not_true_is_false. rewrite Qle_bool_iff, Htoteq. lra. }
  change (random_float raw) with (unit_draw raw).
  set (x := (unit_draw raw * total)%Q).
  assert (x == unit_draw raw * Qsum weights)%Q as Hx by (unfold x; by rewrite Htoteq).
  assert (x < total)%Q as Hxtot.
  { rewrite Hx, Htoteq. rewrite <- (Qmult_1_l (Qsum weights)) at 2.
    by apply Qmult_lt_compat_r. }
  assert (0 <= x)%Q as Hx0.
  { rewrite Hx. apply Qmult_le_0_compat; lra. }
  unfold bisect_right.
  destruct (bisect_loop_spec (accumulate weights) x) with
    (fuel := (length population - 1 - 0)%nat) (lo := 0%nat)
    (hi := (length population - 1)%nat) as (i & Hi & Hrange & Hbelow & Habove).
  { intros j k cj ck Hjk Hj Hk.
    assert (k < length weights)%nat as Hklt
      by (apply lookup_lt_Some in Hk; by rewrite length_accumulate in Hk).
    destruct (accumulate_lookup weights j) as (cj' & Hj' & Hjeq); [lia|].
    destruct (accumulate_lookup weights k) as (ck' & Hk' & Hkeq); [lia|].
    rewrite Hj in Hj'. injection Hj' as <-. rewrite Hk in Hk'. injection Hk' as <-.
    rewrite Hjeq, Hkeq. apply Qsum_take_mono; [done | lia]. }
  { lia. }
  { lia. }
  { rewrite length_accumulate. lia. }
  { intros k c Hk. lia. }
  { intros k c Hk Hc.
    assert (k = length population - 1)%nat as ->.
    { apply lookup_lt_Some in Hc. rewrite length_accumulate in Hc. lia. }
    rewrite Htot in Hc. by injection Hc as <-. }
  rewrite Hi. cbn [mbind result_bind].
  destruct (lookup_lt_is_Some_2 population i) as [page Hpage]; [lia|].
  exists i, page. unfold list_index. rewrite Hpage. split; [done|]. split; [done|].
  rewrite <- Hx. split.
  - destruct i as [|i]; [cbn [firstn Qsum]; rewrite ?take_0; cbn [Qsum]; done|].
    destruct (accumulate_lookup weights i) as (c & Hc & Hceq); [lia|].
    rewrite <- Hceq. apply (Hbelow i c); [lia | done].
  - destruct (accumulate_lookup weights i) as (c & Hc & Hceq); [lia|].
    rewrite <- Hceq. apply (Habove i c); [lia | done].
Qed.

(** ** sample_pagerank, as the program returns it *)

Section sample_walk_spec.
Variables (corpus : corpus_t) (d : Q) (rnd : random_source).
Hypothesis keys_nodup : NoDup (keys corpus).
Hypotheses (d_pos : (0 < d)%Q) (d_lt_1 : (d < 1)%Q).

(** One turn of the loop: the page tallied is the one that the weighted
    draw picks from the transition distribution of the current page. *)
Lemma sample_step_spec cur (data : dict Z) j :
  cur ∈ keys corpus → keys data = keys corpus →
  ∃ distribution k page count,
    transition_model corpus cur d = Ok distribution ∧
    keys distribution = keys corpus ∧
    choices (rnd (S j)) (keys corpus) (values distribution) = Ok page ∧
    keys corpus !! k = Some page ∧
    (Qsum (take k (values distribution))
     <= unit_draw (rnd (S j)) * Qsum (values distribution))%Q ∧
    (unit_draw (rnd (S j)) * Qsum (values distribution)
     < Qsum (take (S k) (values distribution)))%Q ∧
    dict_get data page = Some count ∧
    sample_step corpus d (keys corpus) rnd (cur, data) j
    = Ok (page, dict_set data page (count + 1)%Z).
Proof.
  intros Hcur Hkeys.
  destruct (dict_get_is_Some corpus cur Hcur) as [links Hlinks].
  pose proof (transition_model_Ok corpus cur links d keys_nodup Hlinks) as Hdist.
  set (dist := map (λ p, (p, next_probability corpus links d p)) (keys corpus)) in *.
  assert (keys dist = keys corpus) as Hdkeys by apply keys_fill.
  assert (length (values dist) = length (keys corpus)) as Hlen
    by (unfold dist; rewrite values_fill; apply length_map).
  assert (∀ w, w ∈ values dist → (0 < w)%Q) as Hpos.
  { unfold dist. rewrite values_fill. intros w [p [-> _]]%list_elem_of_fmap.
    apply next_probability_pos; [|done|done]. by eapply len_pos_of_key. }
  destruct (choices_spec (rnd (S j)) (keys corpus) (values dist))
    as (k & page & Hpage & Hk & Hlo & Hhi); [|done|done|].
  { intros Hnil. rewrite Hnil in Hcur. by apply elem_of_nil in Hcur. }
  assert (page ∈ keys corpus) as Hin by (by eapply list_elem_of_lookup_2).
  destruct (dict_get_is_Some data page) as [count Hcount]; [by rewrite Hkeys|].
  exists dist, k, page, count. repeat split; try done.
  unfold sample_step. cbn [fst snd]. rewrite Hdist. cbn [mbind result_bind].
  rewrite Hpage. cbn [mbind result_bind].
  by rewrite (getitem_Ok _ _ _ Hcount).
Qed.

Lemma sample_loop_spec n : ∀ start cur (data : dict Z),
  cur ∈ keys corpus → keys data = keys corpus →
  ∃ visits final data',
    for_in (seq start n) (sample_step corpus d (keys corpus) rnd) (cur, data)
    = Ok (final, data') ∧
    length visits = n ∧
    (∀ q, q ∈ visits → q ∈ keys corpus) ∧
    (∀ j prev page,
       (cur :: visits) !! j = Some prev → visits !! j = Some page →
       ∃ distribution k,
         transition_model corpus prev d = Ok distribution ∧
         keys distribution = keys corpus ∧
         choices (rnd (S (start + j))) (keys corpus) (values distribution) = Ok page ∧
         keys corpus !! k = Some page ∧
         (Qsum (take k (values distribution))
          <= unit_draw (rnd (S (start + j))) * Qsum (values distribution))%Q ∧
         (unit_draw (rnd (S (start + j))) * Qsum (values distribution)
          < Qsum (take (S k) (values distribution)))%Q) ∧
    keys data' = keys corpus ∧
    (∀ p c, dict_get data p = Some c →
            dict_get data' p = Some (c + visit_count p visits)%Z).
Proof.
  induction n as [|n IH]; intros start cur data Hcur Hkeys.
  - exists [], cur, data. repeat split; try done.
    + intros q Hq. by apply elem_of_nil in Hq.
    + intros p c Hc. rewrite Hc. unfold visit_count. simpl. f_equal. lia.
  - destruct (sample_step_spec cur data start Hcur Hkeys)
      as (dist & k & page & count & Hdist & Hdkeys & Hpage & Hk & Hlo & Hhi
          & Hcount & Hstep).
    assert (page ∈ keys corpus) as Hin by (by eapply list_elem_of_lookup_2).
    destruct (IH (S start) page (dict_set data page (count + 1)%Z))
      as (visits & final & data' & Hrun & Hlen & Hvis & Hchain & Hkeys' & Hcnt).
    { done. }
    { rewrite keys_dict_set_in; [done | by rewrite Hkeys]. }
    exists (page :: visits), final, data'. repeat split; try done.
    + cbn [seq for_in]. rewrite Hstep. cbn [mbind result_bind]. done.
    + simpl. by rewrite Hlen.
    + intros q [->|Hq]%elem_of_cons; auto.
    + intros [|j] prev page'; simpl.
      * intros [= <-] [= <-]. exists dist, k. rewrite Nat.add_0_r. by repeat split.
      * intros Hprev Hnext.
        destruct (Hchain j prev page' Hprev Hnext) as (dist' & k' & H').
        exists dist', k'.
        by replace (start + S j)%nat with (S start + j)%nat by lia.
    + intros p c Hc. rewrite visit_count_cons.
      destruct (decide (page = p)) as [->|Hne].
      * rewrite Hc in Hcount. injection Hcount as <-.
        rewrite (Hcnt p (c + 1)%Z) by apply dict_get_set_eq. f_equal. lia.
      * rewrite (Hcnt p c) by (by rewrite dict_get_set_ne). f_equal.
Qed.
End sample_walk_spec.

Lemma divide_all_b64_Ok (data : dict Z) (n : Z) :
  n ≠ 0%Z →
  divide_all_b64 data n = Ok (map (λ entry, (entry.1, b64_div entry.2 n)) data).
Proof.
  intros Hn. induction data as [|[k c] data IH]; [done|].
  cbn [divide_all_b64 map fst snd]. unfold truediv_int.
  rewrite (proj2 (Z.eqb_neq n 0) Hn). cbn [mbind result_bind]. by rewrite IH.
Qed.

Lemma Qsum_inject_Z (l : list Z) : (Qsum (map inject_Z l) == inject_Z (Zsum l))%Q.
Proof.
  induction l as [|z l IH]; cbn [map Qsum Zsum]; [reflexivity|].
  by rewrite IH, inject_Z_plus.
Qed.

(** The counters add up to the number of visits, as integers. *)
Lemma Zsum_visit_count ks visits :
  NoDup ks → (∀ q, q ∈ visits → q ∈ ks) →
  Zsum (map (λ k, visit_count k visits) ks) = Z.of_nat (length visits).
Proof.
  intros Hnd Hsub. apply inject_Z_injective.
  rewrite <- Qsum_inject_Z, map_map.
  by apply Qsum_visit_count.
Qed.

(** C9, refuted as stated: with raw draws that make the walk on the
    three-page corpus visit 1.html three times, 2.html six times and 3.html
    once in n = 10 turns, the program returns the binary64 numbers 3/10,
    6/10 and 1/10; their sum is not 1, neither as the numbers they stand
    for (it is 1 - 2^-55) nor added up in binary64 as [sum] would
    (0.9999999999999999). *)
Lemma sample_pagerank_sum_inexact :
  ∃ data,
    sample_walk (tape_of draws_3_6_1) corpus_html (85 # 100) 10
    = Ok ("2.html", [("1.html", 3%Z); ("2.html", 6%Z); ("3.html", 1%Z)]) ∧
    sample_pagerank_b64 (tape_of draws_3_6_1) corpus_html (85 # 100) 10 = Ok data ∧
    data = [("1.html", S754_finite false 5404319552844595 (-54));
            ("2.html", S754_finite false 5404319552844595 (-53));
            ("3.html", S754_finite false 7205759403792794 (-56))] ∧
    ¬ (Qsum (map SF2Q (values data)) == 1)%Q ∧
    foldl b64_add (S754_zero false) (values data)
    = S754_finite false 9007199254740991 (-53).
Proof.
  eexists. split; [vm_compute; reflexivity|].
  split; [vm_compute; reflexivity|].
  split; [reflexivity|].
  split; [by vm_compute | vm_compute; reflexivity].
Qed.

(** C9, as the code has it: on a non-empty corpus, with a damping factor
    in (0,1) and n >= 1, whatever the random source draws,
    [sample_pagerank] tallies exactly n visits, one per turn of its loop.
    The page of each visit is the one that the weighted draw picks from the
    transition distribution of the page before it: the page at the index
    whose stretch of the running sums of the weights holds the draw, a
    multiple of 2^-53 in [0, 1), scaled by the total weight.  The seed page
    is the page before the first visit and is not tallied.  The value
    returned for a page is the binary64 quotient of its visit count by n.
    The visit counts add up to exactly n, so the exact quotients add up to
    1; the binary64 values returned do so up to rounding only. *)
Theorem sample_pagerank_tallies (rnd : random_source) (corpus : corpus_t)
    (d : Q) (n : Z) :
  corpus ≠ [] → NoDup (keys corpus) → (0 < d)%Q → (d < 1)%Q → (1 ≤ n)%Z →
  ∃ i seed visits data,
    randrange (rnd 0%nat) (len corpus) = Ok i ∧
    list_index (keys corpus) i = Ok seed ∧
    length visits = Z.to_nat n ∧
    (∀ j prev page,
       (seed :: visits) !! j = Some prev → visits !! j = Some page →
       ∃ distribution k,
         transition_model corpus prev d = Ok distribution ∧
         keys distribution = keys corpus ∧
         choices (rnd (S j)) (keys corpus) (values distribution) = Ok page ∧
         keys corpus !! k = Some page ∧
         (Qsum (take k (values distribution))
          <= Qmake (Z.of_N (rnd (S j) `mod` 2 ^ 53)) (2 ^ 53)
             * Qsum (values distribution))%Q ∧
         (Qmake (Z.of_N (rnd (S j) `mod` 2 ^ 53)) (2 ^ 53)
          * Qsum (values distribution)
          < Qsum (take (S k) (values distribution)))%Q) ∧
    sample_pagerank_b64 rnd corpus d n = Ok data ∧
    keys data = keys corpus ∧
    (∀ p, p ∈ keys corpus →
       dict_get data p = Some (b64_div (visit_count p visits) n)) ∧
    Zsum (map (λ p, visit_count p visits) (keys corpus)) = n ∧
    (Qsum (map (λ p, inject_Z (visit_count p visits) / inject_Z n) (keys corpus))
     == 1)%Q.
Proof.
  intros Hne Hnd Hd0 Hd1 Hn.
  destruct (randrange_seed rnd corpus Hne) as (i & seed & Hdraw & Hseed & Hin).
  set (data0 := foldl (λ data filename, dict_set data filename 0%Z) []
                      (keys corpus)).
  assert (data0 = map (λ k, (k, 0%Z)) (keys corpus)) as Hdata0
    by (by apply (dict_fill_nil (λ _, 0%Z))).
  destruct (sample_loop_spec corpus d rnd Hnd Hd0 Hd1 (Z.to_nat n) 0%nat seed data0)
    as (visits & final & data' & Hrun & Hvlen & Hvis & Hchain & Hkeys & Hcnt).
  { done. }
  { rewrite Hdata0. apply keys_fill. }
  assert (data' = map (λ k, (k, visit_count k visits)) (keys corpus)) as Hdata'.
  { rewrite <- Hkeys. apply dict_ext; rewrite Hkeys; [done|].
    intros k Hk. rewrite (Hcnt k 0%Z); [done|].
    rewrite Hdata0. apply dict_get_of_elem; [by rewrite keys_fill|].
    apply list_elem_of_fmap. by exists k. }
  set (ranks := map (λ k, (k, b64_div (visit_count k visits) n)) (keys corpus)).
  assert (sample_pagerank_b64 rnd corpus d n = Ok ranks) as Hresult.
  { unfold sample_pagerank_b64, sample_walk. fold data0.
    rewrite Hdraw. cbn [mbind result_bind]. rewrite Hseed.
    cbn [mbind result_bind]. rewrite Hrun. cbn [mbind result_bind snd].
    rewrite divide_all_b64_Ok by lia. rewrite Hdata'. unfold ranks.
    by rewrite map_map. }
  exists i, seed, visits, ranks.
  split; [done|]. split; [done|]. split; [done|]. split.
  { intros j prev page Hprev Hpage.
    destruct (Hchain j prev page Hprev Hpage) as (dist & k & H).
    exists dist, k. exact H. }
  split; [done|]. split; [unfold ranks; apply keys_fill|]. split.
  { intros p Hp. unfold ranks. apply dict_get_of_elem; [by rewrite keys_fill|].
    apply list_elem_of_fmap. by exists p. }
  split.
  { rewrite Zsum_visit_count, Hvlen by done. lia. }
  rewrite (Qsum_div (λ k, inject_Z (visit_count k visits))).
  rewrite Qsum_visit_count, Hvlen by done.
  unfold Qnat. rewrite Z2Nat.id by lia. field.
  change 0%Q with (inject_Z 0). rewrite inject_Z_injective. lia.
Qed.

Lemma sample_pagerank_tallies_witness :
  ∃ i seed visits data,
    randrange (tape_of draws_3_6_1 0%nat) (len corpus_html) = Ok i ∧
    list_index (keys corpus_html) i = Ok seed ∧
    length visits = Z.to_nat 10 ∧
    (∀ j prev page,
       (seed :: visits) !! j = Some prev → visits !! j = Some page →
       ∃ distribution k,
         transition_model corpus_html prev (85 # 100) = Ok distribution ∧
         keys distribution = keys corpus_html ∧
         choices (tape_of draws_3_6_1 (S j)) (keys corpus_html) (values distribution)
         = Ok page ∧
         keys corpus_html !! k = Some page ∧
         (Qsum (take k (values distribution))
          <= Qmake (Z.of_N (tape_of draws_3_6_1 (S j) `mod` 2 ^ 53)) (2 ^ 53)
             * Qsum (values distribution))%Q ∧
         (Qmake (Z.of_N (tape_of draws_3_6_1 (S j) `mod` 2 ^ 53)) (2 ^ 53)
          * Qsum (values distribution)
          < Qsum (take (S k) (values distribution)))%Q) ∧
    sample_pagerank_b64 (tape_of draws_3_6_1) corpus_html (85 # 100) 10 = Ok data ∧
    keys data = keys corpus_html ∧
    (∀ p, p ∈ keys corpus_html →
       dict_get data p = Some (b64_div (visit_count p visits) 10)) ∧
    Zsum (map (λ p, visit_count p visits) (keys corpus_html)) = 10%Z ∧
    (Qsum (map (λ p, inject_Z (visit_count p visits) / inject_Z 10) (keys corpus_html))
     == 1)%Q.
Proof.
  apply (sample_pagerank_tallies (tape_of draws_3_6_1) corpus_html (85 # 100) 10).
  - discriminate.
  - by_compute.
  - reflexivity.
  - reflexivity.
  - lia.
Defined.
